(** * Shoehive React client: the connection manager and its React hook

    A shallow embedding of the WebSocket client class of the repository
    (the two variants [hooks/ShoehiveClient.js] and [client/ShoehiveClient.js])
    and of the [useShoehive] hook, with the properties of reconnection,
    message dispatch, command sending and the event table. *)

From Stdlib Require Import QArith.
From stdpp Require Import gmap strings list.

Close Scope Q_scope.
Set Default Proof Using "Type".

(** ** JavaScript values that cross the API *)

(** Plain data as it appears in command payloads and messages. *)
#[warnings="-register-all"]
Inductive JSValue :=
  | JSNull
  | JSBool (b : bool)
  | JSNum (n : Z)
  | JSStr (s : string)
  | JSArr (xs : list JSValue)
  | JSObj (props : list (string * JSValue)).

(** An object literal: its own properties in insertion order. *)
Definition JSObject := list (string * JSValue).

(** [o[k] = v] on an ordinary object: an existing key keeps its place and
    takes the new value, a new key goes to the end. *)
Fixpoint obj_set (k : string) (v : JSValue) (o : JSObject) : JSObject :=
  match o with
  | [] => [(k, v)]
  | (k', v') :: o' =>
      if decide (k' = k) then (k, v) :: o' else (k', v') :: obj_set k v o'
  end.

(** [{ ...base, ...src }]: the own properties of [src] are copied in order. *)
Definition obj_spread (base src : JSObject) : JSObject :=
  fold_left (fun o kv => obj_set kv.1 kv.2 o) src base.

Fixpoint obj_get (k : string) (o : JSObject) : option JSValue :=
  match o with
  | [] => None
  | (k', v) :: o' => if decide (k' = k) then Some v else obj_get k o'
  end.

(** An inbound message after [JSON.parse]: a JSON object whose routing key
    [type] is a string (the wire format of the server); [rest] holds the
    other properties. *)
Record Message := { type : string; rest : JSObject }.

(** What a listener receives. *)
Inductive Payload :=
  | PUndefined                                   (* triggerEvent('connected') *)
  | PMessage (m : Message)
  | PCloseEvent (code : Z) (reason : string)      (* the CloseEvent itself *)
  | PCloseInfo (code : Z) (reason : string)       (* { code, reason } *)
  | PErrorEvent                                  (* the transport's error Event *)
  | PBool (b : bool)                             (* onConnectionChange(true) *)
  | PError (kind : string) (message : string).   (* { type, message, error } *)

(** A callback is known by its reference only; two registrations of one
    function carry the same reference. *)
Definition Callback := nat.

(** ** The browser runtime *)

Inductive Exception :=
  | SyntaxError
  | TypeError
  | InvalidStateError
  | Error (message : string).

Inductive Completion (A : Type) :=
  | Normal (a : A)
  | Throw (e : Exception).
Arguments Normal {A} a.
Arguments Throw {A} e.

(** The parts of the runtime the client calls and the repository does not
    define: [None] stands for a thrown exception. *)
Class Runtime := {
  JSON_parse : string -> option Message;
  JSON_stringify : JSObject -> option string;
  (** does [new WebSocket(url)] accept the URL, or throw a SyntaxError *)
  WebSocket_accepts : string -> bool;
  (** does the transport expose [setRequestHeader] (browsers do not) *)
  WebSocket_setRequestHeader : bool
}.

(** The message-type table imported from the [shoehive] package. *)
Class MessageTypes := {
  PLAYER_STATE : string;
  LOBBY_STATE : string;
  TABLE_STATE : string;
  ERROR : string
}.

(** The literal values the self-contained variant [hooks/ShoehiveClient.jsx]
    switches on. *)
Definition literal_types : MessageTypes :=
  {| PLAYER_STATE := "player:state"; LOBBY_STATE := "lobby:state";
     TABLE_STATE := "table:state"; ERROR := "error" |}.

(** The command-type table imported from the [shoehive] package. The two
    classes read it under different key names; the last four are shared. *)
Class CommandTypes := {
  (* read by [client/ShoehiveClient.js] *)
  PLAYER_STATE_GET : string;
  LOBBY_STATE_GET : string;
  TABLE_CREATE : string;
  TABLE_JOIN : string;
  TABLE_STATE_GET : string;
  (* read by [hooks/ShoehiveClient.js] *)
  PLAYER_GET_STATE : string;
  LOBBY_GET_STATE : string;
  LOBBY_CREATE_TABLE : string;
  LOBBY_JOIN_TABLE : string;
  TABLE_GET_STATE : string;
  GAME_COMMAND : string;
  (* read by both *)
  TABLE_LEAVE : string;
  TABLE_SEAT_SIT : string;
  TABLE_SEAT_STAND : string
}.

(** The event names [EVENTS] of the [shoehive] package that the provider
    subscribes to. *)
Class EventNames := {
  CONNECTED : string;
  DISCONNECTED : string
}.

Inductive ReadyState := CONNECTING | OPEN | CLOSING | CLOSED.

#[global] Instance ReadyState_eq_dec : EqDecision ReadyState.
Proof. solve_decision. Defined.

Record WebSocket := {
  ws_url : string;
  ws_protocols : option (list string);
  ws_headers : list (string * string);
  readyState : ReadyState;
  (** frames handed to [send] that [send] accepted, oldest first *)
  ws_sent : list string
}.

Definition new_WebSocket (url : string) (protocols : option (list string)) : WebSocket :=
  {| ws_url := url; ws_protocols := protocols; ws_headers := [];
     readyState := CONNECTING; ws_sent := [] |}.

Definition ws_set_readyState (r : ReadyState) (s : WebSocket) : WebSocket :=
  {| ws_url := ws_url s; ws_protocols := ws_protocols s; ws_headers := ws_headers s;
     readyState := r; ws_sent := ws_sent s |}.

(** [socket.close()]: an opening or open socket starts closing, a closing or
    closed one stays as it is. *)
Definition ws_close (s : WebSocket) : WebSocket :=
  match readyState s with
  | CONNECTING | OPEN => ws_set_readyState CLOSING s
  | CLOSING | CLOSED => s
  end.

(** [socket.send(text)]: throws InvalidStateError while the socket is still
    connecting, otherwise takes the frame. *)
Definition ws_send (text : string) (s : WebSocket) : option WebSocket :=
  match readyState s with
  | CONNECTING => None
  | _ => Some {| ws_url := ws_url s; ws_protocols := ws_protocols s;
                 ws_headers := ws_headers s; readyState := readyState s;
                 ws_sent := ws_sent s ++ [text] |}
  end.

Definition ws_setRequestHeader (k v : string) (s : WebSocket) : WebSocket :=
  {| ws_url := ws_url s; ws_protocols := ws_protocols s;
     ws_headers := ws_headers s ++ [(k, v)];
     readyState := readyState s; ws_sent := ws_sent s |}.

(** [readyState === OPEN || readyState === CONNECTING] *)
Definition ws_live (s : WebSocket) : bool :=
  match readyState s with
  | CONNECTING | OPEN => true
  | CLOSING | CLOSED => false
  end.

(** ** The client object *)

(** What an authentication strategy returns; every part is optional. *)
Record AuthDetails := {
  url : option string;
  protocols : option (list string);
  headers : option (list (string * string))
}.

(** [if (authDetails.url)]: a missing or empty string is falsy. *)
Definition truthy_url (u : option string) : option string :=
  match u with
  | Some s => if decide (s = "") then None else Some s
  | None => None
  end.

(** The constructor's [options]. *)
Record Options := {
  opt_maxReconnectAttempts : option nat;
  opt_reconnectDelay : option Q;
  opt_autoReconnect : option bool;
  opt_authStrategy : option AuthDetails
}.

(** A transport handle is a reference into the heap of WebSocket objects. *)
Definition Handle := nat.

Record ShoehiveClient := {
  serverUrl : string;
  socket : option Handle;
  connected : bool;
  reconnectAttempts : nat;
  maxReconnectAttempts : nat;
  reconnectDelay : Q;
  autoReconnect : bool;
  authStrategy : option AuthDetails;
  playerState : option Message;
  lobbyState : option Message;
  tableState : option Message;
  eventHandlers : gmap string (list Callback);
  (** only in the hooks variant, set by the provider *)
  onPlayerStateChange : option Callback;
  onLobbyStateChange : option Callback;
  onTableStateChange : option Callback;
  onConnectionChange : option Callback
}.

(** [x || dflt] on numbers: zero is falsy. *)
Definition nat_or (x : option nat) (dflt : nat) : nat :=
  match x with
  | Some (S n) => S n
  | _ => dflt
  end.

Definition Q_or (x : option Q) (dflt : Q) : Q :=
  match x with
  | Some q => if Qeq_bool q 0 then dflt else q
  | None => dflt
  end.

Definition constructor (serverUrl : string) (options : Options) : ShoehiveClient :=
  {| serverUrl := serverUrl;
     socket := None;
     connected := false;
     reconnectAttempts := 0;
     maxReconnectAttempts := nat_or (opt_maxReconnectAttempts options) 5;
     reconnectDelay := Q_or (opt_reconnectDelay options) (1000 # 1);
     (* options.autoReconnect !== false *)
     autoReconnect := match opt_autoReconnect options with
                      | Some false => false
                      | _ => true
                      end;
     authStrategy := opt_authStrategy options;
     playerState := None;
     lobbyState := None;
     tableState := None;
     eventHandlers := ∅;
     onPlayerStateChange := None;
     onLobbyStateChange := None;
     onTableStateChange := None;
     onConnectionChange := None |}.

(** Field assignments [this.f = v]. *)
Definition set_socket (v : option Handle) (c : ShoehiveClient) : ShoehiveClient :=
  {| serverUrl := serverUrl c; socket := v; connected := connected c;
     reconnectAttempts := reconnectAttempts c;
     maxReconnectAttempts := maxReconnectAttempts c;
     reconnectDelay := reconnectDelay c; autoReconnect := autoReconnect c;
     authStrategy := authStrategy c; playerState := playerState c;
     lobbyState := lobbyState c; tableState := tableState c;
     eventHandlers := eventHandlers c; onPlayerStateChange := onPlayerStateChange c;
     onLobbyStateChange := onLobbyStateChange c;
     onTableStateChange := onTableStateChange c;
     onConnectionChange := onConnectionChange c |}.

Definition set_connected (v : bool) (c : ShoehiveClient) : ShoehiveClient :=
  {| serverUrl := serverUrl c; socket := socket c; connected := v;
     reconnectAttempts := reconnectAttempts c;
     maxReconnectAttempts := maxReconnectAttempts c;
     reconnectDelay := reconnectDelay c; autoReconnect := autoReconnect c;
     authStrategy := authStrategy c; playerState := playerState c;
     lobbyState := lobbyState c; tableState := tableState c;
     eventHandlers := eventHandlers c; onPlayerStateChange := onPlayerStateChange c;
     onLobbyStateChange := onLobbyStateChange c;
     onTableStateChange := onTableStateChange c;
     onConnectionChange := onConnectionChange c |}.

Definition set_reconnectAttempts (v : nat) (c : ShoehiveClient) : ShoehiveClient :=
  {| serverUrl := serverUrl c; socket := socket c; connected := connected c;
     reconnectAttempts := v; maxReconnectAttempts := maxReconnectAttempts c;
     reconnectDelay := reconnectDelay c; autoReconnect := autoReconnect c;
     authStrategy := authStrategy c; playerState := playerState c;
     lobbyState := lobbyState c; tableState := tableState c;
     eventHandlers := eventHandlers c; onPlayerStateChange := onPlayerStateChange c;
     onLobbyStateChange := onLobbyStateChange c;
     onTableStateChange := onTableStateChange c;
     onConnectionChange := onConnectionChange c |}.

Definition set_autoReconnect (v : bool) (c : ShoehiveClient) : ShoehiveClient :=
  {| serverUrl := serverUrl c; socket := socket c; connected := connected c;
     reconnectAttempts := reconnectAttempts c;
     maxReconnectAttempts := maxReconnectAttempts c;
     reconnectDelay := reconnectDelay c; autoReconnect := v;
     authStrategy := authStrategy c; playerState := playerState c;
     lobbyState := lobbyState c; tableState := tableState c;
     eventHandlers := eventHandlers c; onPlayerStateChange := onPlayerStateChange c;
     onLobbyStateChange := onLobbyStateChange c;
     onTableStateChange := onTableStateChange c;
     onConnectionChange := onConnectionChange c |}.

Definition set_playerState (v : option Message) (c : ShoehiveClient) : ShoehiveClient :=
  {| serverUrl := serverUrl c; socket := socket c; connected := connected c;
     reconnectAttempts := reconnectAttempts c;
     maxReconnectAttempts := maxReconnectAttempts c;
     reconnectDelay := reconnectDelay c; autoReconnect := autoReconnect c;
     authStrategy := authStrategy c; playerState := v; lobbyState := lobbyState c;
     tableState := tableState c; eventHandlers := eventHandlers c;
     onPlayerStateChange := onPlayerStateChange c;
     onLobbyStateChange := onLobbyStateChange c;
     onTableStateChange := onTableStateChange c;
     onConnectionChange := onConnectionChange c |}.

Definition set_lobbyState (v : option Message) (c : ShoehiveClient) : ShoehiveClient :=
  {| serverUrl := serverUrl c; socket := socket c; connected := connected c;
     reconnectAttempts := reconnectAttempts c;
     maxReconnectAttempts := maxReconnectAttempts c;
     reconnectDelay := reconnectDelay c; autoReconnect := autoReconnect c;
     authStrategy := authStrategy c; playerState := playerState c; lobbyState := v;
     tableState := tableState c; eventHandlers := eventHandlers c;
     onPlayerStateChange := onPlayerStateChange c;
     onLobbyStateChange := onLobbyStateChange c;
     onTableStateChange := onTableStateChange c;
     onConnectionChange := onConnectionChange c |}.

Definition set_tableState (v : option Message) (c : ShoehiveClient) : ShoehiveClient :=
  {| serverUrl := serverUrl c; socket := socket c; connected := connected c;
     reconnectAttempts := reconnectAttempts c;
     maxReconnectAttempts := maxReconnectAttempts c;
     reconnectDelay := reconnectDelay c; autoReconnect := autoReconnect c;
     authStrategy := authStrategy c; playerState := playerState c;
     lobbyState := lobbyState c; tableState := v; eventHandlers := eventHandlers c;
     onPlayerStateChange := onPlayerStateChange c;
     onLobbyStateChange := onLobbyStateChange c;
     onTableStateChange := onTableStateChange c;
     onConnectionChange := onConnectionChange c |}.

Definition set_eventHandlers (v : gmap string (list Callback)) (c : ShoehiveClient) : ShoehiveClient :=
  {| serverUrl := serverUrl c; socket := socket c; connected := connected c;
     reconnectAttempts := reconnectAttempts c;
     maxReconnectAttempts := maxReconnectAttempts c;
     reconnectDelay := reconnectDelay c; autoReconnect := autoReconnect c;
     authStrategy := authStrategy c; playerState := playerState c;
     lobbyState := lobbyState c; tableState := tableState c; eventHandlers := v;
     onPlayerStateChange := onPlayerStateChange c;
     onLobbyStateChange := onLobbyStateChange c;
     onTableStateChange := onTableStateChange c;
     onConnectionChange := onConnectionChange c |}.

(** The provider's assignments to the four state-change callbacks. *)
Definition set_state_callbacks (p l t k : option Callback) (c : ShoehiveClient) :
    ShoehiveClient :=
  {| serverUrl := serverUrl c; socket := socket c; connected := connected c;
     reconnectAttempts := reconnectAttempts c;
     maxReconnectAttempts := maxReconnectAttempts c;
     reconnectDelay := reconnectDelay c; autoReconnect := autoReconnect c;
     authStrategy := authStrategy c; playerState := playerState c;
     lobbyState := lobbyState c; tableState := tableState c;
     eventHandlers := eventHandlers c;
     onPlayerStateChange := p; onLobbyStateChange := l;
     onTableStateChange := t; onConnectionChange := k |}.

(** ** The world around the client

    The client object, the WebSocket objects it has created, the timers it
    has armed, and two traces that record what listeners could observe. *)
Record World := {
  this : ShoehiveClient;
  (** every WebSocket created so far; a handle is an index into this list *)
  heap : list WebSocket;
  (** delays of the pending [setTimeout(() => this.connect(), delay)] *)
  timers : list Q;
  (** every delay handed to [setTimeout], oldest first *)
  scheduled : list Q;
  (** every [triggerEvent(event, data)] call, oldest first *)
  fired : list (string * Payload);
  (** every callback invocation, oldest first *)
  invoked : list (Callback * Payload)
}.

Definition set_this (c : ShoehiveClient) (w : World) : World :=
  {| this := c; heap := heap w; timers := timers w; scheduled := scheduled w;
     fired := fired w; invoked := invoked w |}.

Definition set_heap (hp : list WebSocket) (w : World) : World :=
  {| this := this w; heap := hp; timers := timers w; scheduled := scheduled w;
     fired := fired w; invoked := invoked w |}.

Definition set_timers (ts : list Q) (w : World) : World :=
  {| this := this w; heap := heap w; timers := ts; scheduled := scheduled w;
     fired := fired w; invoked := invoked w |}.

(** Assignment to a field of [this]. *)
Definition assign (f : ShoehiveClient -> ShoehiveClient) (w : World) : World :=
  set_this (f (this w)) w.

Definition new_world (serverUrl : string) (options : Options) : World :=
  {| this := constructor serverUrl options; heap := []; timers := [];
     scheduled := []; fired := []; invoked := [] |}.

(** [setTimeout(() => this.connect(), delay)] *)
Definition setTimeout (delay : Q) (w : World) : World :=
  {| this := this w; heap := heap w; timers := timers w ++ [delay];
     scheduled := scheduled w ++ [delay]; fired := fired w; invoked := invoked w |}.

(** [callback(data)]: callbacks are opaque to the client; the call is
    recorded and the callback is taken not to call back into the client or
    throw. *)
Definition call (data : Payload) (w : World) (callback : Callback) : World :=
  {| this := this w; heap := heap w; timers := timers w; scheduled := scheduled w;
     fired := fired w; invoked := invoked w ++ [(callback, data)] |}.

(** [if (f) f(data)] for the optional provider callbacks. *)
Definition call_if_set (f : option Callback) (data : Payload) (w : World) : World :=
  match f with
  | Some callback => call data w callback
  | None => w
  end.

(** ** The event table: identical in both variants of the class

    [this.eventHandlers] is an object used as a map from event names to
    arrays of callbacks; event names are taken not to clash with the
    properties every object inherits. *)

Definition triggerEvent (event : string) (data : Payload) (w : World) : World :=
  let w := {| this := this w; heap := heap w; timers := timers w;
              scheduled := scheduled w; fired := fired w ++ [(event, data)];
              invoked := invoked w |} in
  match eventHandlers (this w) !! event with
  | Some callbacks => fold_left (call data) callbacks w
  | None => w
  end.

(** The body of [on] up to its [return]; the closure it returns is
    [unsubscribe event callback] of the variant at hand. *)
Definition on (event : string) (callback : Callback) (w : World) : World :=
  let w :=
    match eventHandlers (this w) !! event with
    | Some _ => w
    | None => assign (set_eventHandlers (<[event := []]> (eventHandlers (this w)))) w
    end in
  match eventHandlers (this w) !! event with
  | Some callbacks =>
      assign (set_eventHandlers (<[event := callbacks ++ [callback]]> (eventHandlers (this w)))) w
  | None => w
  end.

(** The callbacks registered for an event, none when it has no entry. *)
Abbreviation handlers w event := (default [] (eventHandlers (this w) !! event)).

(** [cb => cb !== callback] *)
Definition other_than (callback : Callback) (cb : Callback) : bool :=
  negb (bool_decide (cb = callback)).

(** ** Sending a command: identical in both variants of the class *)

Definition heap_live (w : World) (h : Handle) : bool :=
  match heap w !! h with
  | Some s => ws_live s
  | None => false
  end.

Section SendCommand.
Context `{Runtime}.

(** [{ action, ...data }] *)
Definition command (action : string) (data : JSObject) : JSObject :=
  obj_spread [("action", JSStr action)] data.

(** Every failure inside the [try] is caught and turns into [false]. *)
Definition sendCommand (action : string) (data : JSObject) (w : World) : World * bool :=
  if negb (connected (this w)) then (w, false)
  else
    match JSON_stringify (command action data) with
    | None => (w, false)
    | Some text =>
        match socket (this w) with
        | None => (w, false)                       (* this.socket is null *)
        | Some h =>
            match heap w !! h with
            | None => (w, false)
            | Some s =>
                match ws_send text s with
                | None => (w, false)               (* send threw *)
                | Some s' => (set_heap (<[h := s']> (heap w)) w, true)
                end
            end
        end
    end.
End SendCommand.

(** ** Parts of [connect] and of the transport shared by both variants *)

(** The guard of [connect]: [this.socket] is set and opening or open. *)
Definition socket_live (w : World) : bool :=
  match socket (this w) with
  | Some h => heap_live w h
  | None => false
  end.

Section Transport.
Context `{Runtime}.

(** [this.socket = new WebSocket(url, protocols)]; [None] when the
    constructor throws, in which case nothing has been assigned. *)
Definition open_socket (url : string) (protocols : option (list string))
    (w : World) : option World :=
  if WebSocket_accepts url then
    Some (assign (set_socket (Some (length (heap w))))
            (set_heap (heap w ++ [new_WebSocket url protocols]) w))
  else None.
End Transport.

(** The transport changes the state of a socket before it runs a listener. *)
Definition heap_update (h : Handle) (f : WebSocket -> WebSocket) (w : World) : World :=
  match heap w !! h with
  | Some s => set_heap (<[h := f s]> (heap w)) w
  | None => w
  end.

(** What can happen to a client: calls of its public methods, events of
    the transport on a socket it created, and an armed timer going off. *)
Inductive Action :=
  | CallConnect
  | CallDisconnect
  | CallSendCommand (action : string) (data : JSObject)
  | CallOn (event : string) (callback : Callback)
  | CallUnsubscribe (event : string) (callback : Callback)
  | SocketOpen (h : Handle)
  | SocketMessage (h : Handle) (data : string)
  | SocketClose (h : Handle) (code : Z) (reason : string)
  | SocketError (h : Handle)
  | TimerFires (i : nat).

(** A sequence of actions, one after the other; [None] when one of them
    cannot happen in the world it meets. *)
Fixpoint run_actions (step : Action -> World -> option World)
    (actions : list Action) (w : World) : option World :=
  match actions with
  | [] => Some w
  | a :: actions' =>
      match step a w with
      | Some w' => run_actions step actions' w'
      | None => None
      end
  end.

(** When the transport may deliver an event on socket [h]. *)
Definition ready_in (states : list ReadyState) (h : Handle) (w : World) : bool :=
  match heap w !! h with
  | Some s => bool_decide (readyState s ∈ states)
  | None => false
  end.

(** [Math.pow(1.5, n)] as an exact rational. *)
Definition pow_1_5 (n : nat) : Q := Qpower (3 # 2) (Z.of_nat n).

(** ** [client/ShoehiveClient.js]: the class the package exports *)
Module Core.
Section Client.
Context `{Runtime} `{MessageTypes}.

Definition handleMessage (message : Message) (w : World) : World :=
  let w :=
    if decide (type message = PLAYER_STATE) then
      assign (set_playerState (Some message)) w
    else if decide (type message = LOBBY_STATE) then
      assign (set_lobbyState (Some message)) w
    else if decide (type message = TABLE_STATE) then
      assign (set_tableState (Some message)) w
    else w in
  let w := triggerEvent (type message) (PMessage message) w in
  triggerEvent "message" (PMessage message) w.

(** The four listeners of [setupSocketListeners]. *)
Definition on_open (w : World) : World :=
  let w := assign (set_connected true) w in
  let w := assign (set_reconnectAttempts 0) w in
  triggerEvent "connected" PUndefined w.

Definition on_message (data : string) (w : World) : World :=
  match JSON_parse data with
  | Some message => handleMessage message w
  | None =>
      triggerEvent "error" (PError "parseError" "Failed to parse server message") w
  end.

Definition on_close (code : Z) (reason : string) (w : World) : World :=
  let w := assign (set_connected false) w in
  let w := triggerEvent "disconnected" (PCloseInfo code reason) w in
  if autoReconnect (this w)
     && (reconnectAttempts (this w) <? maxReconnectAttempts (this w)) then
    let w := assign (set_reconnectAttempts (S (reconnectAttempts (this w)))) w in
    let delay :=
      (reconnectDelay (this w) * pow_1_5 (reconnectAttempts (this w) - 1))%Q in
    setTimeout delay w
  else w.

Definition on_error (w : World) : World :=
  triggerEvent "error" (PError "socketError" "WebSocket connection error") w.

Definition connect (w : World) : World * bool :=
  if socket_live w then (w, false)
  else
    let created :=
      match authStrategy (this w) with
      | Some authConfig =>
          match truthy_url (url authConfig) with
          | Some u => open_socket u (protocols authConfig) w
          | None => open_socket (serverUrl (this w)) (protocols authConfig) w
          end
      | None => open_socket (serverUrl (this w)) None w
      end in
    match created with
    | Some w' => (w', true)
    | None =>
        (triggerEvent "error"
           (PError "connectionError" "Failed to create WebSocket connection") w,
         false)
    end.

Definition disconnect (w : World) : World :=
  match socket (this w) with
  | Some h =>
      let w := assign (set_autoReconnect false) w in
      let w := heap_update h ws_close w in
      assign (set_socket None) w
  | None => w
  end.

(** The closure returned by [on event callback]. *)
Definition unsubscribe (event : string) (callback : Callback) (w : World) : World :=
  match eventHandlers (this w) !! event with
  | Some callbacks =>
      assign (set_eventHandlers
                (<[event := filter (fun cb => other_than callback cb) callbacks]>
                   (eventHandlers (this w)))) w
  | None => w
  end.

(** The timer callback [() => this.connect()]. *)
Definition timer_fires (i : nat) (w : World) : option World :=
  match timers w !! i with
  | Some _ => Some (connect (set_timers (delete i (timers w)) w)).1
  | None => None
  end.

Definition step (a : Action) (w : World) : option World :=
  match a with
  | CallConnect => Some (connect w).1
  | CallDisconnect => Some (disconnect w)
  | CallSendCommand action data => Some (sendCommand action data w).1
  | CallOn event callback => Some (on event callback w)
  | CallUnsubscribe event callback => Some (unsubscribe event callback w)
  | SocketOpen h =>
      if ready_in [CONNECTING] h w
      then Some (on_open (heap_update h (ws_set_readyState OPEN) w)) else None
  | SocketMessage h data =>
      if ready_in [OPEN; CLOSING] h w then Some (on_message data w) else None
  | SocketClose h code reason =>
      if ready_in [CONNECTING; OPEN; CLOSING] h w
      then Some (on_close code reason (heap_update h (ws_set_readyState CLOSED) w))
      else None
  | SocketError h =>
      if ready_in [CONNECTING; OPEN; CLOSING] h w then Some (on_error w) else None
  | TimerFires i => timer_fires i w
  end.

Definition run : list Action -> World -> option World := run_actions step.

(** The worlds a client built by the constructor can get into. *)
Inductive reachable : World -> Prop :=
  | reachable_new serverUrl options : reachable (new_world serverUrl options)
  | reachable_step a w w' : reachable w -> step a w = Some w' -> reachable w'.
(** The convenience methods: each is [sendCommand] with a fixed action. *)
Context `{CommandTypes}.

Definition sendGameCommand (action : string) (data : JSObject) (w : World) :
    World * bool :=
  sendCommand action data w.

Definition getPlayerState (w : World) : World * bool :=
  sendCommand PLAYER_STATE_GET [] w.

Definition getLobbyState (w : World) : World * bool :=
  sendCommand LOBBY_STATE_GET [] w.

Definition createTable (gameId : JSValue) (options : JSObject) (w : World) :
    World * bool :=
  sendCommand TABLE_CREATE [("gameId", gameId); ("options", JSObj options)] w.

Definition joinTable (tableId : JSValue) (w : World) : World * bool :=
  sendCommand TABLE_JOIN [("tableId", tableId)] w.

Definition getTableState (w : World) : World * bool :=
  sendCommand TABLE_STATE_GET [] w.

Definition leaveTable (w : World) : World * bool :=
  sendCommand TABLE_LEAVE [] w.

Definition sitAtSeat (seatIndex : JSValue) (w : World) : World * bool :=
  sendCommand TABLE_SEAT_SIT [("seatIndex", seatIndex)] w.

Definition standFromSeat (w : World) : World * bool :=
  sendCommand TABLE_SEAT_STAND [] w.
End Client.
End Core.

(** ** [hooks/ShoehiveClient.js]: the earlier class, kept beside the hooks

    [hooks/ShoehiveClient.jsx] holds the same class with the message types
    written as literals, that is, at [literal_types]. *)
Module Hooks.
Section Client.
Context `{Runtime} `{MessageTypes}.

Definition handleMessage (message : Message) (w : World) : World :=
  if decide (type message = PLAYER_STATE) then
    let w := assign (set_playerState (Some message)) w in
    let w := triggerEvent "playerState" (PMessage message) w in
    call_if_set (onPlayerStateChange (this w)) (PMessage message) w
  else if decide (type message = LOBBY_STATE) then
    let w := assign (set_lobbyState (Some message)) w in
    let w := triggerEvent "lobbyState" (PMessage message) w in
    call_if_set (onLobbyStateChange (this w)) (PMessage message) w
  else if decide (type message = TABLE_STATE) then
    let w := assign (set_tableState (Some message)) w in
    let w := triggerEvent "tableState" (PMessage message) w in
    call_if_set (onTableStateChange (this w)) (PMessage message) w
  else if decide (type message = ERROR) then
    triggerEvent "serverError" (PMessage message) w
  else
    triggerEvent (type message) (PMessage message) w.

(** The four listeners [connect] registers on the new socket. *)
Definition on_open (w : World) : World :=
  let w := assign (set_connected true) w in
  let w := assign (set_reconnectAttempts 0) w in
  let w := triggerEvent "connected" PUndefined w in
  call_if_set (onConnectionChange (this w)) (PBool true) w.

(** A payload that does not parse is logged to the console, nothing more. *)
Definition on_message (data : string) (w : World) : World :=
  match JSON_parse data with
  | Some message => handleMessage message w
  | None => w
  end.

Definition on_close (code : Z) (reason : string) (w : World) : World :=
  let w := assign (set_connected false) w in
  let w := triggerEvent "disconnected" (PCloseEvent code reason) w in
  let w := call_if_set (onConnectionChange (this w)) (PBool false) w in
  if autoReconnect (this w)
     && (reconnectAttempts (this w) <? maxReconnectAttempts (this w)) then
    let w := assign (set_reconnectAttempts (S (reconnectAttempts (this w)))) w in
    let delay :=
      (reconnectDelay (this w) * pow_1_5 (reconnectAttempts (this w) - 1))%Q in
    setTimeout delay w
  else w.

Definition on_error (w : World) : World :=
  triggerEvent "error" PErrorEvent w.

(** [Object.entries(headers).forEach(([key, value]) => ...)] *)
Definition apply_headers (hdrs : list (string * string)) (w : World) : World :=
  match socket (this w) with
  | Some h =>
      fold_left (fun w kv => heap_update h (ws_setRequestHeader kv.1 kv.2) w) hdrs w
  | None => w
  end.

(** There is no [try] here: a throwing WebSocket constructor leaves the
    client as it was and the exception goes to the caller. *)
Definition connect (w : World) : World * Completion unit :=
  if socket_live w then (w, Normal ())
  else
    let created :=
      match authStrategy (this w) with
      | Some authDetails =>
          let url :=
            match truthy_url (url authDetails) with
            | Some u => u
            | None => serverUrl (this w)
            end in
          match open_socket url (protocols authDetails) w with
          | Some w' =>
              match headers authDetails with
              | Some hdrs =>
                  if WebSocket_setRequestHeader then Some (apply_headers hdrs w')
                  else Some w'
              | None => Some w'
              end
          | None => None
          end
      | None => open_socket (serverUrl (this w)) None w
      end in
    match created with
    | Some w' => (w', Normal ())
    | None => (w, Throw SyntaxError)
    end.

Definition disconnect (w : World) : World :=
  match socket (this w) with
  | Some h =>
      let w := assign (set_autoReconnect false) w in
      heap_update h ws_close w
  | None => w
  end.

(** The closure returned by [on event callback]; it reads the list without
    checking that it is there. *)
Definition unsubscribe (event : string) (callback : Callback) (w : World) :
    World * Completion unit :=
  match eventHandlers (this w) !! event with
  | Some callbacks =>
      (assign (set_eventHandlers
                 (<[event := filter (fun cb => other_than callback cb) callbacks]>
                    (eventHandlers (this w)))) w,
       Normal ())
  | None => (w, Throw TypeError)
  end.

(** The timer callback [() => this.connect()]. *)
Definition timer_fires (i : nat) (w : World) : option World :=
  match timers w !! i with
  | Some _ => Some (connect (set_timers (delete i (timers w)) w)).1
  | None => None
  end.

Definition step (a : Action) (w : World) : option World :=
  match a with
  | CallConnect => Some (connect w).1
  | CallDisconnect => Some (disconnect w)
  | CallSendCommand action data => Some (sendCommand action data w).1
  | CallOn event callback => Some (on event callback w)
  | CallUnsubscribe event callback => Some (unsubscribe event callback w).1
  | SocketOpen h =>
      if ready_in [CONNECTING] h w
      then Some (on_open (heap_update h (ws_set_readyState OPEN) w)) else None
  | SocketMessage h data =>
      if ready_in [OPEN; CLOSING] h w then Some (on_message data w) else None
  | SocketClose h code reason =>
      if ready_in [CONNECTING; OPEN; CLOSING] h w
      then Some (on_close code reason (heap_update h (ws_set_readyState CLOSED) w))
      else None
  | SocketError h =>
      if ready_in [CONNECTING; OPEN; CLOSING] h w then Some (on_error w) else None
  | TimerFires i => timer_fires i w
  end.

Definition run : list Action -> World -> option World := run_actions step.

(** The worlds a client can get into once the provider has built it and
    assigned its state-change callbacks. *)
Inductive reachable : World -> Prop :=
  | reachable_new serverUrl options p l t k :
      reachable (assign (set_state_callbacks p l t k) (new_world serverUrl options))
  | reachable_step a w w' : reachable w -> step a w = Some w' -> reachable w'.
(** The convenience methods: each is [sendCommand] with a fixed action. *)
Context `{CommandTypes}.

(** [hooks/ShoehiveClient.js] wraps the game action into a command of type
    [GAME_COMMAND]; in [hooks/ShoehiveClient.jsx] the method is
    [sendCommand(action, data)] as in [Core.sendGameCommand]. *)
Definition sendGameCommand (action : string) (data : JSObject) (w : World) :
    World * bool :=
  sendCommand GAME_COMMAND (obj_spread [("gameAction", JSStr action)] data) w.

Definition getPlayerState (w : World) : World * bool :=
  sendCommand PLAYER_GET_STATE [] w.

Definition getLobbyState (w : World) : World * bool :=
  sendCommand LOBBY_GET_STATE [] w.

Definition createTable (gameId : JSValue) (options : JSObject) (w : World) :
    World * bool :=
  sendCommand LOBBY_CREATE_TABLE [("gameId", gameId); ("options", JSObj options)] w.

Definition joinTable (tableId : JSValue) (w : World) : World * bool :=
  sendCommand LOBBY_JOIN_TABLE [("tableId", tableId)] w.

Definition getTableState (w : World) : World * bool :=
  sendCommand TABLE_GET_STATE [] w.

Definition leaveTable (w : World) : World * bool :=
  sendCommand TABLE_LEAVE [] w.

Definition sitAtSeat (seatIndex : JSValue) (w : World) : World * bool :=
  sendCommand TABLE_SEAT_SIT [("seatIndex", seatIndex)] w.

Definition standFromSeat (w : World) : World * bool :=
  sendCommand TABLE_SEAT_STAND [] w.
End Client.
End Hooks.

(** ** The React binding: context and hook *)
Module React.
(** The data a context value carries; its methods are closures over the
    client and are left out. *)
Record ContextObject := {
  client : option ShoehiveClient;
  isConnected : bool;
  connectionState : option string;
  playerState : option Message;
  lobbyState : option Message;
  tableState : option Message
}.

Inductive Value :=
  | Null
  | Object (o : ContextObject).

Record Context := { defaultValue : Value }.

Definition createContext (defaultValue : Value) : Context :=
  {| defaultValue := defaultValue |}.

(** [useContext(ctx)] in a component whose enclosing providers of [ctx]
    carry the values [providers], innermost first: the nearest value, or
    the default of the context when there is no provider. *)
Definition useContext (ctx : Context) (providers : list Value) : Value :=
  match providers with
  | value :: _ => value
  | [] => defaultValue ctx
  end.

(** [!context] *)
Definition falsy (v : Value) : bool :=
  match v with
  | Null => true
  | Object _ => false
  end.

Definition useShoehive (ShoehiveContext : Context) (providers : list Value) :
    Completion Value :=
  let context := useContext ShoehiveContext providers in
  if falsy context then
    Throw (Error "useShoehive must be used within a ShoehiveProvider")
  else Normal context.

(** [context/ShoehiveContext.js], the context [hooks/useShoehive.js] and
    the provider import. *)
Definition ShoehiveContext : Context :=
  createContext
    (Object {| client := None; isConnected := false;
               connectionState := Some "disconnected";
               playerState := None; lobbyState := None; tableState := None |}).

(** The context of the self-contained [hooks/ShoehiveClient.jsx]. *)
Definition ShoehiveContext_jsx : Context := createContext Null.

(** What [ShoehiveProvider] passes to [<ShoehiveContext.Provider value=...>]:
    always an object literal. *)
Definition provided (o : ContextObject) : Value := Object o.
End React.

(** ** The providers *)

(** The props of [ShoehiveProvider], with their defaults filled in. *)
Record Props := {
  prop_serverUrl : string;
  prop_autoConnect : bool;
  prop_authStrategy : option AuthDetails;
  prop_maxReconnectAttempts : nat;
  prop_reconnectDelay : Q
}.

(** [context/ShoehiveProvider.js]: the provider the package exports. It
    drives the class of [client/ShoehiveClient.js] and mirrors its state
    through event handlers. The React state setters the handlers call are
    outside the client and are left out. *)
Module ContextProvider.
Section Provider.
Context `{Runtime} `{MessageTypes} `{EventNames}.

(** The five handler closures one run of the second effect creates. *)
Record Handlers := {
  connectedHandler : Callback;
  disconnectedHandler : Callback;
  playerStateHandler : Callback;
  lobbyStateHandler : Callback;
  tableStateHandler : Callback
}.

(** The first effect: [new ShoehiveClient(serverUrl, { autoReconnect: true, ... })]. *)
Definition create (p : Props) : World :=
  new_world (prop_serverUrl p)
    {| opt_maxReconnectAttempts := Some (prop_maxReconnectAttempts p);
       opt_reconnectDelay := Some (prop_reconnectDelay p);
       opt_autoReconnect := Some true;
       opt_authStrategy := prop_authStrategy p |}.

(** Its cleanup: [newClient.disconnect()]. *)
Definition dispose (w : World) : World := Core.disconnect w.

(** The five [client.on(...)] calls; the closures they return are dropped. *)
Definition register (hs : Handlers) (w : World) : World :=
  let w := on CONNECTED (connectedHandler hs) w in
  let w := on DISCONNECTED (disconnectedHandler hs) w in
  let w := on PLAYER_STATE (playerStateHandler hs) w in
  let w := on LOBBY_STATE (lobbyStateHandler hs) w in
  on TABLE_STATE (tableStateHandler hs) w.

(** The second effect: register the handlers, then connect if asked to. *)
Definition effect (hs : Handlers) (autoConnect : bool) (w : World) : World :=
  let w := register hs w in
  if autoConnect then (Core.connect w).1 else w.

(** Its cleanup is written with [client.on] again: the same five calls. *)
Definition cleanup (hs : Handlers) (w : World) : World := register hs w.
End Provider.
End ContextProvider.

(** [hooks/ShoehiveProvider.js], and the provider inside
    [hooks/ShoehiveClient.jsx]: it keeps the client in a ref and mirrors its
    state through the four state-change callbacks. *)
Module HooksProvider.
Section Provider.
Context `{Runtime}.

(** The React state setters handed to the client. *)
Record Setters := {
  setIsConnected : Callback;
  setPlayerState : Callback;
  setLobbyState : Callback;
  setTableState : Callback
}.

(** The effect, on the content of [clientRef.current]. The options passed
    to the constructor carry [autoConnect], which the constructor never
    reads; [connect] is called whatever its value. *)
Definition effect (p : Props) (st : Setters) (clientRef : option World) :
    option World * Completion unit :=
  match clientRef with
  | None =>
      let w :=
        new_world (prop_serverUrl p)
          {| opt_maxReconnectAttempts := Some (prop_maxReconnectAttempts p);
             opt_reconnectDelay := Some (prop_reconnectDelay p);
             opt_autoReconnect := None;
             opt_authStrategy := prop_authStrategy p |} in
      let w :=
        assign (set_state_callbacks (Some (setPlayerState st)) (Some (setLobbyState st))
                  (Some (setTableState st)) (Some (setIsConnected st))) w in
      let r := Hooks.connect w in
      (Some r.1, r.2)
  | Some w => (Some w, Normal ())
  end.

(** The cleanup: [if (clientRef.current) clientRef.current.disconnect()]. *)
Definition cleanup (clientRef : option World) : option World :=
  match clientRef with
  | Some w => Some (Hooks.disconnect w)
  | None => None
  end.
End Provider.
End HooksProvider.

(** ** Properties as the specification words them, and scenarios *)

(** The [triggerEvent] calls of a trace that carry a given event name. *)
Definition named (event : string) (trace : list (string * Payload)) :
    list (string * Payload) :=
  filter (fun e => bool_decide (e.1 = event)) trace.



(** The client object once [handleMessage] has stored the message in the
    slot of its type, if it has one. *)
Definition cached `{MessageTypes} (message : Message) (c : ShoehiveClient) :
    ShoehiveClient :=
  if decide (type message = PLAYER_STATE) then set_playerState (Some message) c
  else if decide (type message = LOBBY_STATE) then set_lobbyState (Some message) c
  else if decide (type message = TABLE_STATE) then set_tableState (Some message) c
  else c.

(** The name of the one event [Hooks.handleMessage] fires for a message. *)
Definition hooks_event `{MessageTypes} (message : Message) : string :=
  if decide (type message = PLAYER_STATE) then "playerState"
  else if decide (type message = LOBBY_STATE) then "lobbyState"
  else if decide (type message = TABLE_STATE) then "tableState"
  else if decide (type message = ERROR) then "serverError"
  else type message.

(** Malformed payloads as specified: one parse error event, nothing else,
    and the cached slots untouched. *)
Definition drops_malformed_as_specified `{Runtime}
    (on_message : string -> World -> World) : Prop :=
  forall data w,
    JSON_parse data = None ->
    (exists message,
        fired (on_message data w) = fired w ++ [("error", PError "parseError" message)]) /\
    this (on_message data w) = this w.

(** A transport that accepts every URL and has no header support, with a
    parser that rejects exactly one payload; used to run the model. *)
Definition sample_runtime : Runtime :=
  {| JSON_parse data :=
       if decide (data = "not json") then None
       else Some {| type := data; rest := [] |};
     JSON_stringify o := Some (String.concat "," (map fst o));
     WebSocket_accepts _ := true;
     WebSocket_setRequestHeader := false |}.

Definition default_options : Options :=
  {| opt_maxReconnectAttempts := None; opt_reconnectDelay := None;
     opt_autoReconnect := None; opt_authStrategy := None |}.


(** The delays [d, d*1.5, ..., d*1.5^(n-1)] counted from attempt [S k]. *)
Definition backoff (d : Q) (k n : nat) : list Q :=
  map (fun i => (d * pow_1_5 i)%Q) (seq k n).


(** The URL [connect] resolves for the client. *)
Definition resolved_url (c : ShoehiveClient) : string :=
  match authStrategy c with
  | Some a =>
      match truthy_url (url a) with
      | Some u => u
      | None => serverUrl c
      end
  | None => serverUrl c
  end.

(** The part of the world the connection guard looks at. *)
Definition transport_of (w : World) : option Handle * list WebSocket :=
  (socket (this w), heap w).


(** At most one socket of the heap is opening or open, and it is the one
    the client holds. *)
Definition one_live_handle (w : World) : Prop :=
  forall h, heap_live w h = true -> socket (this w) = Some h.

(** A command table with the literal values of [hooks/ShoehiveClient.jsx],
    to run the model. *)
Definition sample_commands : CommandTypes :=
  {| PLAYER_STATE_GET := "player:state:get"; LOBBY_STATE_GET := "lobby:state:get";
     TABLE_CREATE := "lobby:table:create"; TABLE_JOIN := "lobby:table:join";
     TABLE_STATE_GET := "table:state:get";
     PLAYER_GET_STATE := "player:state:get"; LOBBY_GET_STATE := "lobby:state:get";
     LOBBY_CREATE_TABLE := "lobby:table:create"; LOBBY_JOIN_TABLE := "lobby:table:join";
     TABLE_GET_STATE := "table:state:get"; GAME_COMMAND := "game:command";
     TABLE_LEAVE := "table:leave"; TABLE_SEAT_SIT := "table:seat:sit";
     TABLE_SEAT_STAND := "table:seat:stand" |}.

Definition sample_events : EventNames :=
  {| CONNECTED := "connected"; DISCONNECTED := "disconnected" |}.

Definition sample_props : Props :=
  {| prop_serverUrl := "ws://host"; prop_autoConnect := true;
     prop_authStrategy := None; prop_maxReconnectAttempts := 5;
     prop_reconnectDelay := (1000 # 1)%Q |}.

(** Messages handled one after the other, oldest first. *)
Definition deliver (handleMessage : Message -> World -> World)
    (messages : list Message) (w : World) : World :=
  fold_left (fun w message => handleMessage message w) messages w.

(** The last message of type [T] among [messages], or [old] when there is
    none. *)
Definition latest (T : string) (messages : list Message) (old : option Message) :
    option Message :=
  fold_left (fun acc message => if decide (type message = T) then Some message else acc)
    messages old.

(** How one action may change what the reconnection logic depends on: the
    configuration stays, auto-reconnect can only be switched off, the
    attempt counter stays, is reset, or goes up by one below the maximum
    with auto-reconnect on, and a timer is armed only with auto-reconnect on. *)
Definition bounded_change (w w' : World) : Prop :=
  serverUrl (this w') = serverUrl (this w) /\
  authStrategy (this w') = authStrategy (this w) /\
  maxReconnectAttempts (this w') = maxReconnectAttempts (this w) /\
  reconnectDelay (this w') = reconnectDelay (this w) /\
  (autoReconnect (this w') = autoReconnect (this w) \/ autoReconnect (this w') = false) /\
  (reconnectAttempts (this w') = reconnectAttempts (this w) \/
   reconnectAttempts (this w') = 0 \/
   (autoReconnect (this w) = true /\
    reconnectAttempts (this w) < maxReconnectAttempts (this w) /\
    reconnectAttempts (this w') = S (reconnectAttempts (this w)))) /\
  (scheduled w' = scheduled w \/
   (autoReconnect (this w) = true /\ exists delay, scheduled w' = scheduled w ++ [delay])) /\
  (forall event, is_Some (eventHandlers (this w) !! event) ->
                 is_Some (eventHandlers (this w') !! event)).

(** The handle the client holds refers to a socket it has created. *)
Definition handle_valid (w : World) : Prop :=
  forall h, socket (this w) = Some h -> h < length (heap w).

(** The number of times a callback stands in a list of callbacks. *)
Definition occurrences (callback : Callback) (callbacks : list Callback) : nat :=
  length (filter (fun cb => cb = callback) callbacks).

(** The sub-protocols [connect] passes to the WebSocket constructor. *)
Definition resolved_protocols (c : ShoehiveClient) : option (list string) :=
  match authStrategy c with
  | Some a => protocols a
  | None => None
  end.

(** The headers the authentication strategy asks for. *)
Definition resolved_headers (c : ShoehiveClient) : list (string * string) :=
  match authStrategy c with
  | Some a => default [] (headers a)
  | None => []
  end.

(** A socket after [setRequestHeader] has been called for each header. *)
Definition with_headers (hdrs : list (string * string)) (s : WebSocket) : WebSocket :=
  fold_left (fun s kv => ws_setRequestHeader kv.1 kv.2 s) hdrs s.

(** The world once [connect] has created the socket [s] and holds it. *)
Definition connected_with (s : WebSocket) (w : World) : World :=
  assign (set_socket (Some (length (heap w)))) (set_heap (heap w ++ [s]) w).

(** A transport that rejects one URL and has [setRequestHeader]; the parser
    is the one of [sample_runtime]. *)
Definition strict_runtime : Runtime :=
  {| JSON_parse := @JSON_parse sample_runtime;
     JSON_stringify := @JSON_stringify sample_runtime;
     WebSocket_accepts u := negb (bool_decide (u = "not a url"));
     WebSocket_setRequestHeader := true |}.

(** The text [sendCommand] hands to a socket, added to what it took before. *)
Definition ws_take (text : string) (s : WebSocket) : WebSocket :=
  {| ws_url := ws_url s; ws_protocols := ws_protocols s; ws_headers := ws_headers s;
     readyState := readyState s; ws_sent := ws_sent s ++ [text] |}.

(** The result [r] of a call in world [w] is: the object [o] was
    stringified and handed to the held socket, and the call returned true. *)
Definition sends `{Runtime} (r : World * bool) (w : World) (o : JSObject) : Prop :=
  forall h s text,
    connected (this w) = true -> socket (this w) = Some h -> heap w !! h = Some s ->
    readyState s <> CONNECTING -> JSON_stringify o = Some text ->
    r = (set_heap (<[h := ws_take text s]> (heap w)) w, true).

(** The callback of the provider that [Hooks.handleMessage] calls after the
    event, if the message has a slot and the callback is set. *)
Definition state_callback `{MessageTypes} (message : Message) (c : ShoehiveClient) :
    option Callback :=
  if decide (type message = PLAYER_STATE) then onPlayerStateChange c
  else if decide (type message = LOBBY_STATE) then onLobbyStateChange c
  else if decide (type message = TABLE_STATE) then onTableStateChange c
  else None.

(** The callbacks [ContextProvider.register] adds to the list of an event,
    in the order it adds them. *)
Definition subscriptions `{MessageTypes} `{EventNames}
    (hs : ContextProvider.Handlers) (event : string) : list Callback :=
  (if decide (CONNECTED = event) then [ContextProvider.connectedHandler hs] else []) ++
  (if decide (DISCONNECTED = event) then [ContextProvider.disconnectedHandler hs] else []) ++
  (if decide (PLAYER_STATE = event) then [ContextProvider.playerStateHandler hs] else []) ++
  (if decide (LOBBY_STATE = event) then [ContextProvider.lobbyStateHandler hs] else []) ++
  (if decide (TABLE_STATE = event) then [ContextProvider.tableStateHandler hs] else []).

(** The options the provider of the hooks directory builds from its props. *)
Definition props_options (p : Props) : Options :=
  {| opt_maxReconnectAttempts := Some (prop_maxReconnectAttempts p);
     opt_reconnectDelay := Some (prop_reconnectDelay p);
     opt_autoReconnect := None;
     opt_authStrategy := prop_authStrategy p |}.

(** ** Firing events *)

Lemma fold_call_spec data callbacks w :
  fold_left (call data) callbacks w =
  {| this := this w; heap := heap w; timers := timers w; scheduled := scheduled w;
     fired := fired w;
     invoked := invoked w ++ map (fun cb => (cb, data)) callbacks |}.
Proof.
  revert w. induction callbacks as [|cb callbacks IH]; intros w; simpl.
  - rewrite app_nil_r. by destruct w.
  - rewrite IH. simpl. by rewrite <- app_assoc.
Qed.

(** Firing an event touches the two traces and nothing else: the call is
    logged and the registered callbacks run in list order. *)
Lemma triggerEvent_spec event data w :
  triggerEvent event data w =
  {| this := this w; heap := heap w; timers := timers w; scheduled := scheduled w;
     fired := fired w ++ [(event, data)];
     invoked := invoked w ++
       map (fun cb => (cb, data)) (default [] (eventHandlers (this w) !! event)) |}.
Proof.
  unfold triggerEvent. simpl.
  destruct (eventHandlers (this w) !! event) as [callbacks|]; simpl.
  - by rewrite fold_call_spec.
  - by rewrite app_nil_r.
Qed.

Lemma call_if_set_spec f data w :
  call_if_set f data w =
  {| this := this w; heap := heap w; timers := timers w; scheduled := scheduled w;
     fired := fired w;
     invoked := invoked w ++ match f with Some cb => [(cb, data)] | None => [] end |}.
Proof. destruct f; simpl; [done|]. rewrite app_nil_r. by destruct w. Qed.

Lemma named_app event l1 l2 : named event (l1 ++ l2) = named event l1 ++ named event l2.
Proof. apply filter_app. Qed.



(** ** Message routing *)



(** In both variants the slot is stored first and the events are fired on
    the client that already holds it. *)
Lemma core_handleMessage_cache_then_fire `{MessageTypes} message w :
  Core.handleMessage message w =
  triggerEvent "message" (PMessage message)
    (triggerEvent (type message) (PMessage message) (assign (cached message) w)).
Proof.
  unfold Core.handleMessage, cached, assign.
  repeat case_decide; reflexivity.
Qed.

Lemma hooks_handleMessage_cache_then_fire `{MessageTypes} message w :
  exists f,
    Hooks.handleMessage message w =
    call_if_set f (PMessage message)
      (triggerEvent (hooks_event message) (PMessage message)
         (assign (cached message) w)).
Proof.
  unfold Hooks.handleMessage, hooks_event, cached, assign.
  repeat case_decide; try (eexists; reflexivity); exists None; reflexivity.
Qed.

Lemma core_handleMessage_this `{MessageTypes} message w :
  this (Core.handleMessage message w) = cached message (this w).
Proof. rewrite core_handleMessage_cache_then_fire. by rewrite !triggerEvent_spec. Qed.

Lemma hooks_handleMessage_this `{MessageTypes} message w :
  this (Hooks.handleMessage message w) = cached message (this w).
Proof.
  destruct (hooks_handleMessage_cache_then_fire message w) as [f ->].
  by rewrite call_if_set_spec, triggerEvent_spec.
Qed.





(** ** Malformed payloads *)

(** C5, as the code has it. For a payload that [JSON.parse] rejects,
    [client/ShoehiveClient.js] fires exactly one event, "error" of kind
    parseError, and changes nothing of the client (so no cached slot), no
    socket and no timer; [hooks/ShoehiveClient.js] only logs the failure:
    no event fires and nothing changes. *)
Theorem malformed_payload_dropped `{Runtime} `{MessageTypes} data w :
  JSON_parse data = None ->
  (fired (Core.on_message data w) =
     fired w ++ [("error", PError "parseError" "Failed to parse server message")] /\
   this (Core.on_message data w) = this w /\
   heap (Core.on_message data w) = heap w /\
   timers (Core.on_message data w) = timers w) /\
  Hooks.on_message data w = w.
Proof.
  intros Hparse. unfold Core.on_message, Hooks.on_message. rewrite Hparse.
  rewrite triggerEvent_spec. simpl. done.
Qed.

Lemma malformed_payload_dropped_witness :
  let w := new_world "ws://host" default_options in
  @JSON_parse sample_runtime "not json" = None /\
  fired (@Core.on_message sample_runtime literal_types "not json" w) =
    [("error", PError "parseError" "Failed to parse server message")] /\
  @Hooks.on_message sample_runtime literal_types "not json" w = w.
Proof.
  intros w.
  pose proof (@malformed_payload_dropped sample_runtime literal_types
                "not json" w eq_refl) as [(Hc & _) Hh].
  split; [reflexivity|]. split; [exact Hc | exact Hh].
Defined.

(** C5 as stated fails in [hooks/ShoehiveClient.js]: its message listener
    catches the parse failure and fires no event at all. *)
Lemma malformed_payload_counterexample :
  let w := new_world "ws://host" default_options in
  @JSON_parse sample_runtime "not json" = None /\
  fired (@Hooks.on_message sample_runtime literal_types "not json" w) = [] /\
  ~ @drops_malformed_as_specified sample_runtime
      (@Hooks.on_message sample_runtime literal_types).
Proof.
  intros w. split; [reflexivity|]. split; [reflexivity|].
  intros Hall. destruct (Hall "not json" w eq_refl) as [(message & Hfired) _].
  simpl in Hfired. discriminate.
Qed.

(** ** What handling a message may change *)


(** C9. Handling a message changes, of the client object, at most the one
    cached slot of the type of the message: a player-state message sets
    [playerState] and leaves every other field as it was, likewise for lobby
    and table state, and a message of any other type leaves the whole
    object as it was; the connected flag, the attempt counter, the sockets
    and the timers never change. Holds for both variants of the class, the
    three type constants being distinct. *)
Theorem handleMessage_frame `{MessageTypes} message w :
  NoDup [PLAYER_STATE; LOBBY_STATE; TABLE_STATE] ->
  forall w', w' = Core.handleMessage message w \/ w' = Hooks.handleMessage message w ->
    (type message = PLAYER_STATE -> this w' = set_playerState (Some message) (this w)) /\
    (type message = LOBBY_STATE -> this w' = set_lobbyState (Some message) (this w)) /\
    (type message = TABLE_STATE -> this w' = set_tableState (Some message) (this w)) /\
    (type message ∉ [PLAYER_STATE; LOBBY_STATE; TABLE_STATE] -> this w' = this w) /\
    connected (this w') = connected (this w) /\
    reconnectAttempts (this w') = reconnectAttempts (this w) /\
    heap w' = heap w /\ timers w' = timers w.
Proof.
  intros Hdistinct w' Hw'.
  assert (Hthis : this w' = cached message (this w)).
  { destruct Hw' as [-> | ->];
      [apply core_handleMessage_this | apply hooks_handleMessage_this]. }
  unfold cached in Hthis.
  assert (Hrest : heap w' = heap w /\ timers w' = timers w).
  { destruct Hw' as [-> | ->].
    - unfold Core.handleMessage. rewrite !triggerEvent_spec. simpl.
      repeat case_decide; done.
    - unfold Hooks.handleMessage.
      repeat case_decide; rewrite ?call_if_set_spec, ?triggerEvent_spec; done. }
  apply NoDup_cons in Hdistinct as [Hp Hdistinct].
  apply NoDup_cons in Hdistinct as [Hl _].
  rewrite Hthis.
  split; [|split; [|split; [|split; [|split; [|split]]]]].
  - intros Heq. by rewrite decide_True.
  - intros Heq. rewrite decide_False; [by rewrite decide_True|].
    intros Heq'. apply Hp. rewrite <- Heq', Heq. repeat constructor.
  - intros Heq. rewrite decide_False; [rewrite decide_False; [by rewrite decide_True|]|].
    + intros Heq'. apply Hl. rewrite <- Heq', Heq. repeat constructor.
    + intros Heq'. apply Hp. rewrite <- Heq', Heq. repeat constructor.
  - intros Hnot.
    apply not_elem_of_cons in Hnot as [? Hnot].
    apply not_elem_of_cons in Hnot as [? Hnot].
    apply not_elem_of_cons in Hnot as [? _].
    by rewrite !decide_False.
  - repeat case_decide; reflexivity.
  - repeat case_decide; reflexivity.
  - exact Hrest.
Qed.

Lemma handleMessage_frame_witness :
  let w := new_world "ws://host" default_options in
  let m := {| type := "lobby:state"; rest := [] |} in
  this (@Core.handleMessage literal_types m w) = set_lobbyState (Some m) (this w) /\
  this (@Hooks.handleMessage literal_types m w) = set_lobbyState (Some m) (this w).
Proof.
  intros w m.
  assert (Hdistinct : NoDup [@PLAYER_STATE literal_types; @LOBBY_STATE literal_types;
                             @TABLE_STATE literal_types]).
  { apply (bool_decide_unpack _). vm_compute. exact I. }
  split.
  - exact (proj1 (proj2 (@handleMessage_frame literal_types m w Hdistinct _
                           (or_introl eq_refl))) eq_refl).
  - exact (proj1 (proj2 (@handleMessage_frame literal_types m w Hdistinct _
                           (or_intror eq_refl))) eq_refl).
Defined.

(** ** The event table *)

(** Subscribing appends to the list of the event and changes nothing else. *)
Lemma on_spec event callback w :
  on event callback w =
  assign (set_eventHandlers
            (<[event := handlers w event ++ [callback]]> (eventHandlers (this w)))) w.
Proof.
  unfold on. destruct (eventHandlers (this w) !! event) as [callbacks|] eqn:Hev.
  - by rewrite Hev.
  - simpl. rewrite lookup_insert_eq. unfold assign. simpl. by rewrite insert_insert_eq.
Qed.

Lemma on_handlers event callback w :
  eventHandlers (this (on event callback w)) !! event =
  Some (handlers w event ++ [callback]).
Proof. rewrite on_spec. simpl. apply lookup_insert_eq. Qed.

Lemma on_handlers_other event event' callback w :
  event <> event' ->
  eventHandlers (this (on event callback w)) !! event' = eventHandlers (this w) !! event'.
Proof. intros Hne. rewrite on_spec. simpl. by apply lookup_insert_ne. Qed.

Lemma core_unsubscribe_handlers event callback w callbacks :
  eventHandlers (this w) !! event = Some callbacks ->
  eventHandlers (this (Core.unsubscribe event callback w)) !! event =
  Some (filter (fun cb => other_than callback cb) callbacks).
Proof.
  intros Hev. unfold Core.unsubscribe. rewrite Hev. simpl. apply lookup_insert_eq.
Qed.

Lemma hooks_unsubscribe_handlers event callback w callbacks :
  eventHandlers (this w) !! event = Some callbacks ->
  (Hooks.unsubscribe event callback w).2 = Normal () /\
  eventHandlers (this (Hooks.unsubscribe event callback w).1) !! event =
  Some (filter (fun cb => other_than callback cb) callbacks).
Proof.
  intros Hev. unfold Hooks.unsubscribe. rewrite Hev. simpl.
  split; [done|]. apply lookup_insert_eq.
Qed.

Lemma triggerEvent_invoked event data w :
  invoked (triggerEvent event data w) =
  invoked w ++ map (fun cb => (cb, data)) (handlers w event).
Proof. by rewrite triggerEvent_spec. Qed.

Lemma filter_other_than_eq (callback : Callback) (l : list Callback) :
  filter (fun cb => other_than callback cb) (callback :: l) =
  filter (fun cb => other_than callback cb) l.
Proof.
  rewrite filter_cons. destruct (decide _) as [Hd|Hd]; [|done].
  exfalso. unfold other_than in Hd. by rewrite bool_decide_eq_true_2 in Hd.
Qed.

Lemma filter_other_than_ne (callback cb : Callback) (l : list Callback) :
  cb <> callback ->
  filter (fun cb => other_than callback cb) (cb :: l) =
  cb :: filter (fun cb => other_than callback cb) l.
Proof.
  intros Hne. rewrite filter_cons. destruct (decide _) as [Hd|Hd]; [done|].
  exfalso. apply Hd. unfold other_than. by rewrite bool_decide_eq_false_2.
Qed.

Lemma filter_other_than_self (callback : Callback) (callbacks : list Callback) :
  callback ∉ filter (fun cb => other_than callback cb) callbacks.
Proof.
  rewrite list_elem_of_filter. intros [Hother _]. unfold other_than in Hother.
  by rewrite bool_decide_eq_true_2 in Hother.
Qed.

(** C7. With no handler yet for "connected", registering [c1] and then a
    different [c2] gives the list [c1; c2]; the closure returned for [c1]
    leaves exactly [c2], so the next "connected" event invokes [c2] and
    nothing else. In general [on] appends to the list of the event, and
    firing an event invokes the callbacks registered for it at that moment,
    in the order of the list. Holds for the closure of both variants. *)
Theorem unsubscribe_first_keeps_second (c1 c2 : Callback) data w :
  c1 <> c2 ->
  handlers w "connected" = [] ->
  let w2 := on "connected" c2 (on "connected" c1 w) in
  eventHandlers (this w2) !! "connected" = Some [c1; c2] /\
  (forall w3,
      w3 = Core.unsubscribe "connected" c1 w2 \/
      w3 = (Hooks.unsubscribe "connected" c1 w2).1 ->
      eventHandlers (this w3) !! "connected" = Some [c2] /\
      invoked (triggerEvent "connected" data w3) = invoked w3 ++ [(c2, data)]) /\
  (Hooks.unsubscribe "connected" c1 w2).2 = Normal () /\
  (forall event callback w0,
      eventHandlers (this (on event callback w0)) !! event =
      Some (handlers w0 event ++ [callback])) /\
  (forall event payload w0,
      invoked (triggerEvent event payload w0) =
      invoked w0 ++ map (fun cb => (cb, payload)) (handlers w0 event)).
Proof.
  intros Hne Hnone w2.
  assert (H2 : eventHandlers (this w2) !! "connected" = Some [c1; c2]).
  { unfold w2. rewrite on_handlers, on_handlers. simpl. by rewrite Hnone. }
  assert (Hfilter : filter (fun cb => other_than c1 cb) [c1; c2] = [c2]).
  { rewrite filter_other_than_eq, filter_other_than_ne by congruence. done. }
  split; [exact H2|]. split; [|split; [|split]].
  - intros w3 Hw3.
    assert (H3 : eventHandlers (this w3) !! "connected" = Some [c2]).
    { destruct Hw3 as [-> | ->].
      - rewrite (core_unsubscribe_handlers _ _ _ _ H2). by rewrite Hfilter.
      - destruct (hooks_unsubscribe_handlers _ c1 _ _ H2) as [_ ->]. by rewrite Hfilter. }
    split; [exact H3|]. rewrite triggerEvent_invoked, H3. done.
  - by destruct (hooks_unsubscribe_handlers _ c1 _ _ H2) as [-> _].
  - intros. apply on_handlers.
  - intros. apply triggerEvent_invoked.
Qed.

Lemma unsubscribe_first_keeps_second_witness :
  let w := new_world "ws://host" default_options in
  let w2 := on "connected" 2 (on "connected" 1 w) in
  1 <> 2 /\ handlers w "connected" = [] /\
  eventHandlers (this (Core.unsubscribe "connected" 1 w2)) !! "connected" = Some [2] /\
  invoked (triggerEvent "connected" PUndefined (Core.unsubscribe "connected" 1 w2)) =
    [(2, PUndefined)].
Proof.
  intros w w2.
  assert (Hne : 1 <> 2) by discriminate.
  assert (Hnone : handlers w "connected" = []) by reflexivity.
  pose proof (unsubscribe_first_keeps_second 1 2 PUndefined w Hne Hnone)
    as (_ & Hafter & _).
  destruct (Hafter (Core.unsubscribe "connected" 1 w2) (or_introl eq_refl))
    as [Hlist Hinvoked].
  split; [exact Hne|]. split; [exact Hnone|]. split; [exact Hlist|exact Hinvoked].
Defined.

(** Nothing in a filtered list calls the callback that was filtered out. *)
Lemma no_calls_after_filter (callback : Callback) (data : Payload) (l : list Callback) :
  filter (fun c : Callback * Payload => bool_decide (c.1 = callback))
    (map (fun cb => (cb, data)) (filter (fun cb => other_than callback cb) l)) = [].
Proof.
  induction l as [|cb l IH]; [done|].
  destruct (decide (cb = callback)) as [->|Hne].
  - by rewrite filter_other_than_eq.
  - rewrite filter_other_than_ne by done. simpl. rewrite filter_cons. simpl.
    rewrite decide_False; [exact IH|].
    intros Htrue. by apply bool_decide_unpack in Htrue.
Qed.

Lemma iter_on_handlers n event callback w :
  handlers (Nat.iter n (on event callback) w) event =
  handlers w event ++ replicate n callback.
Proof.
  induction n as [|n IH]; simpl.
  - by rewrite app_nil_r.
  - rewrite on_handlers. simpl. rewrite IH, <- app_assoc. f_equal.
    clear IH. induction n as [|n IH]; simpl; [done|]. by rewrite IH.
Qed.

Lemma iter_on_registered n event callback w :
  is_Some (eventHandlers (this (Nat.iter (S n) (on event callback) w)) !! event).
Proof. simpl. rewrite on_handlers. eauto. Qed.

(** C10. Register one callback [n >= 2] times for an event: the list of
    the event then holds it [n] times more than before. Invoking one of the
    returned closures filters the list by reference, which removes every
    occurrence: the callback is no longer in the list, the other callbacks
    keep their places, and the next firing of the event invokes it zero
    times. Holds for the closure of both variants. *)
Theorem unsubscribe_removes_every_occurrence n event (callback : Callback) data w :
  2 <= n ->
  let wn := Nat.iter n (on event callback) w in
  handlers wn event = handlers w event ++ replicate n callback /\
  forall w',
    w' = Core.unsubscribe event callback wn \/
    w' = (Hooks.unsubscribe event callback wn).1 ->
    handlers w' event =
      filter (fun cb => other_than callback cb) (handlers w event) /\
    (callback ∉ handlers w' event) /\
    exists calls,
      invoked (triggerEvent event data w') = invoked w' ++ calls /\
      filter (fun c : Callback * Payload => bool_decide (c.1 = callback)) calls = [].
Proof.
  intros Hn wn.
  assert (Hwn : handlers wn event = handlers w event ++ replicate n callback)
    by apply iter_on_handlers.
  split; [exact Hwn|]. intros w' Hw'.
  destruct n as [|n]; [lia|].
  destruct (iter_on_registered n event callback w) as [callbacks Hev].
  fold wn in Hev.
  assert (Hcallbacks : callbacks = handlers w event ++ replicate (S n) callback).
  { rewrite <- Hwn, Hev. done. }
  assert (Hfilter : filter (fun cb => other_than callback cb) callbacks =
                    filter (fun cb => other_than callback cb) (handlers w event)).
  { rewrite Hcallbacks, filter_app.
    assert (Hrep : forall k, filter (fun cb => other_than callback cb)
                               (replicate k callback) = []).
    { intros k. induction k as [|k IH]; [done|]. simpl.
      by rewrite filter_other_than_eq. }
    by rewrite Hrep, app_nil_r. }
  assert (Hw'ev : handlers w' event =
                  filter (fun cb => other_than callback cb) (handlers w event)).
  { destruct Hw' as [-> | ->].
    - rewrite (core_unsubscribe_handlers _ _ _ _ Hev). simpl. exact Hfilter.
    - destruct (hooks_unsubscribe_handlers _ callback _ _ Hev) as [_ ->]. exact Hfilter. }
  split; [exact Hw'ev|]. split.
  - rewrite Hw'ev. apply filter_other_than_self.
  - eexists. split; [apply triggerEvent_invoked|].
    rewrite Hw'ev. apply no_calls_after_filter.
Qed.

Lemma unsubscribe_removes_every_occurrence_witness :
  let w := on "tick" 7 (new_world "ws://host" default_options) in
  let w3 := Nat.iter 3 (on "tick" 5) w in
  2 <= 3 /\
  handlers w3 "tick" = [7; 5; 5; 5] /\
  handlers (Core.unsubscribe "tick" 5 w3) "tick" = [7] /\
  handlers (Hooks.unsubscribe "tick" 5 w3).1 "tick" = [7].
Proof.
  intros w w3.
  assert (Hn : 2 <= 3) by lia.
  pose proof (unsubscribe_removes_every_occurrence 3 "tick" 5 PUndefined w Hn)
    as [Hreg Hun].
  split; [exact Hn|]. split; [exact Hreg|]. split.
  - exact (proj1 (Hun _ (or_introl eq_refl))).
  - exact (proj1 (Hun _ (or_intror eq_refl))).
Defined.

(** ** Sending commands *)

Lemma obj_get_set k k' v o :
  obj_get k' (obj_set k v o) = if decide (k = k') then Some v else obj_get k' o.
Proof.
  induction o as [|[k0 v0] o IH]; simpl.
  - destruct (decide (k = k')); done.
  - destruct (decide (k0 = k)) as [->|Hne]; simpl.
    + destruct (decide (k = k')); done.
    + rewrite IH. destruct (decide (k0 = k')) as [->|]; [|done].
      by rewrite decide_False.
Qed.

Lemma obj_get_absent k (o : JSObject) : k ∉ o.*1 -> obj_get k o = None.
Proof.
  induction o as [|[k0 v0] o IH]; simpl; [done|].
  intros Hnot. apply not_elem_of_cons in Hnot as [Hne Hnot].
  rewrite decide_False by congruence. by apply IH.
Qed.

(** The spread copies every property of the source over the base. *)
Lemma obj_get_spread k (base src : JSObject) :
  NoDup src.*1 ->
  obj_get k (obj_spread base src) =
  match obj_get k src with
  | Some v => Some v
  | None => obj_get k base
  end.
Proof.
  unfold obj_spread. revert base.
  induction src as [|[k0 v0] src IH]; intros base Hnodup; simpl; [done|].
  apply NoDup_cons in Hnodup as [Hfresh Hnodup].
  rewrite IH by done. rewrite obj_get_set.
  destruct (decide (k0 = k)) as [->|Hne]; [|done].
  by rewrite obj_get_absent.
Qed.

(** C4. While [connected] is false, [sendCommand] returns false and leaves
    the world as it is: no frame reaches a socket and nothing is kept for
    later. While [connected] is true it stringifies [{ action, ...data }]
    (the properties of [data], and [action] unless [data] has its own),
    hands the text to [send] of the socket and returns true; when
    stringifying throws, the socket is gone or [send] throws, the failure
    is caught and the result is false, again with the world as it was.
    [sendCommand] has no other outcome, so no exception leaves it. *)
Theorem sendCommand_contract `{Runtime} action data w :
  (connected (this w) = false -> sendCommand action data w = (w, false)) /\
  (forall h s text,
      connected (this w) = true -> socket (this w) = Some h -> heap w !! h = Some s ->
      JSON_stringify (command action data) = Some text ->
      readyState s <> CONNECTING ->
      exists s',
        sendCommand action data w = (set_heap (<[h := s']> (heap w)) w, true) /\
        ws_sent s' = ws_sent s ++ [text] /\ readyState s' = readyState s) /\
  (JSON_stringify (command action data) = None \/ socket (this w) = None \/
   (exists h s, socket (this w) = Some h /\ heap w !! h = Some s /\
                readyState s = CONNECTING) ->
   sendCommand action data w = (w, false)) /\
  (forall w', sendCommand action data w = (w', false) -> w' = w) /\
  (forall w', sendCommand action data w = (w', true) -> connected (this w) = true) /\
  (NoDup data.*1 ->
   forall k, obj_get k (command action data) =
             match obj_get k data with
             | Some v => Some v
             | None => if decide (k = "action") then Some (JSStr action) else None
             end).
Proof.
  split; [|split; [|split; [|split; [|split]]]].
  - intros Hoff. unfold sendCommand. by rewrite Hoff.
  - intros h s text Hon Hsock Hs Htext Hready.
    unfold sendCommand. rewrite Hon, Htext, Hsock, Hs. simpl.
    unfold ws_send. destruct (readyState s) eqn:Hr; [done|..];
      (eexists; split; [reflexivity|]; simpl; by rewrite ?Hr).
  - intros Hfail. unfold sendCommand.
    destruct (connected (this w)); simpl; [|done].
    destruct Hfail as [-> | [Hnone | (h & s & Hsock & Hs & Hr)]]; [done|..].
    + destruct (JSON_stringify _) as [text|]; [|done]. by rewrite Hnone.
    + destruct (JSON_stringify _) as [text|]; [|done]. rewrite Hsock, Hs.
      unfold ws_send. by rewrite Hr.
  - intros w'. unfold sendCommand.
    destruct (connected (this w)); simpl; [|congruence].
    destruct (JSON_stringify _) as [text|]; [|congruence].
    destruct (socket (this w)) as [h|]; [|congruence].
    destruct (heap w !! h) as [s|]; [|congruence].
    destruct (ws_send _ s); congruence.
  - intros w'. unfold sendCommand.
    destruct (connected (this w)); simpl; [done|congruence].
  - intros Hnodup k. unfold command. rewrite obj_get_spread by done.
    simpl. destruct (obj_get k data); [done|].
    destruct (decide ("action" = k)) as [<-|Hne]; [done|].
    by rewrite decide_False.
Qed.

Lemma sendCommand_contract_witness :
  let w := new_world "ws://host" default_options in
  connected (this w) = false /\
  @sendCommand sample_runtime "table:leave" [("tableId", JSStr "t1")] w = (w, false).
Proof.
  intros w. split; [reflexivity|].
  exact (proj1 (@sendCommand_contract sample_runtime "table:leave"
                  [("tableId", JSStr "t1")] w) eq_refl).
Defined.

(** ** The hook *)

(** C8 on the code. Below a provider the hook returns the value of the
    nearest provider and does not throw, and with the context of
    [hooks/ShoehiveClient.jsx], created with [null], it throws when there is
    no provider. With [context/ShoehiveContext.js], the context that
    [hooks/useShoehive.js] imports, the default value is an object, so the
    guard never fires: without a provider the hook returns that default
    object instead of throwing. *)
Theorem useShoehive_outside_provider :
  (forall ctx o enclosing,
      React.useShoehive ctx (React.provided o :: enclosing) = Normal (React.Object o)) /\
  React.useShoehive React.ShoehiveContext_jsx [] =
    Throw (Error "useShoehive must be used within a ShoehiveProvider") /\
  React.useShoehive React.ShoehiveContext [] =
    Normal (React.defaultValue React.ShoehiveContext) /\
  (forall providers e, React.useShoehive React.ShoehiveContext providers <> Throw e \/
                       React.Null ∈ providers).
Proof.
  split; [|split; [|split]]; try reflexivity.
  intros providers e. destruct providers as [|[|o] providers].
  - left. discriminate.
  - right. constructor.
  - left. discriminate.
Qed.

(** ** Listeners leave the sockets alone *)

Lemma core_on_close_spec code reason w :
  Core.on_close code reason w =
  let retry := autoReconnect (this w)
               && (reconnectAttempts (this w) <? maxReconnectAttempts (this w)) in
  let delay := (reconnectDelay (this w) * pow_1_5 (S (reconnectAttempts (this w)) - 1))%Q in
  {| this := if retry
             then set_reconnectAttempts (S (reconnectAttempts (this w)))
                    (set_connected false (this w))
             else set_connected false (this w);
     heap := heap w;
     timers := if retry then timers w ++ [delay] else timers w;
     scheduled := if retry then scheduled w ++ [delay] else scheduled w;
     fired := fired w ++ [("disconnected", PCloseInfo code reason)];
     invoked := invoked w ++
       map (fun cb => (cb, PCloseInfo code reason)) (handlers w "disconnected") |}.
Proof.
  unfold Core.on_close. rewrite triggerEvent_spec. simpl.
  destruct (autoReconnect (this w)
            && (reconnectAttempts (this w) <? maxReconnectAttempts (this w))); done.
Qed.

Lemma hooks_on_close_spec code reason w :
  Hooks.on_close code reason w =
  let retry := autoReconnect (this w)
               && (reconnectAttempts (this w) <? maxReconnectAttempts (this w)) in
  let delay := (reconnectDelay (this w) * pow_1_5 (S (reconnectAttempts (this w)) - 1))%Q in
  {| this := if retry
             then set_reconnectAttempts (S (reconnectAttempts (this w)))
                    (set_connected false (this w))
             else set_connected false (this w);
     heap := heap w;
     timers := if retry then timers w ++ [delay] else timers w;
     scheduled := if retry then scheduled w ++ [delay] else scheduled w;
     fired := fired w ++ [("disconnected", PCloseEvent code reason)];
     invoked := (invoked w ++
       map (fun cb => (cb, PCloseEvent code reason)) (handlers w "disconnected")) ++
       match onConnectionChange (this w) with
       | Some cb => [(cb, PBool false)]
       | None => []
       end |}.
Proof.
  unfold Hooks.on_close. rewrite call_if_set_spec, triggerEvent_spec. simpl.
  destruct (autoReconnect (this w)
            && (reconnectAttempts (this w) <? maxReconnectAttempts (this w))); done.
Qed.

Lemma core_handleMessage_transport `{MessageTypes} message w :
  transport_of (Core.handleMessage message w) = transport_of w.
Proof.
  unfold transport_of, Core.handleMessage. rewrite !triggerEvent_spec. simpl.
  repeat case_decide; reflexivity.
Qed.

Lemma hooks_handleMessage_transport `{MessageTypes} message w :
  transport_of (Hooks.handleMessage message w) = transport_of w.
Proof.
  unfold transport_of, Hooks.handleMessage.
  repeat case_decide; rewrite ?call_if_set_spec, ?triggerEvent_spec; reflexivity.
Qed.

Lemma core_listeners_transport `{Runtime} `{MessageTypes} w :
  transport_of (Core.on_open w) = transport_of w /\
  (forall data, transport_of (Core.on_message data w) = transport_of w) /\
  (forall code reason, transport_of (Core.on_close code reason w) = transport_of w) /\
  transport_of (Core.on_error w) = transport_of w.
Proof.
  split; [|split; [|split]].
  - unfold Core.on_open. by rewrite triggerEvent_spec.
  - intros data. unfold Core.on_message. destruct (JSON_parse data).
    + apply core_handleMessage_transport.
    + by rewrite triggerEvent_spec.
  - intros code reason. rewrite core_on_close_spec. unfold transport_of. simpl.
    destruct (autoReconnect (this w) && _); done.
  - unfold Core.on_error. by rewrite triggerEvent_spec.
Qed.

Lemma hooks_listeners_transport `{Runtime} `{MessageTypes} w :
  transport_of (Hooks.on_open w) = transport_of w /\
  (forall data, transport_of (Hooks.on_message data w) = transport_of w) /\
  (forall code reason, transport_of (Hooks.on_close code reason w) = transport_of w) /\
  transport_of (Hooks.on_error w) = transport_of w.
Proof.
  split; [|split; [|split]].
  - unfold Hooks.on_open. by rewrite call_if_set_spec, triggerEvent_spec.
  - intros data. unfold Hooks.on_message. destruct (JSON_parse data).
    + apply hooks_handleMessage_transport.
    + done.
  - intros code reason. rewrite hooks_on_close_spec. unfold transport_of. simpl.
    destruct (autoReconnect (this w) && _); done.
  - unfold Hooks.on_error. by rewrite triggerEvent_spec.
Qed.

(** ** At most one live socket *)

Lemma heap_live_update h f w h' :
  heap_live (heap_update h f w) h' =
  if decide (h' = h)
  then match heap w !! h with Some s => ws_live (f s) | None => false end
  else heap_live w h'.
Proof.
  unfold heap_update, heap_live.
  destruct (heap w !! h) as [s|] eqn:Hs; simpl.
  - destruct (decide (h' = h)) as [->|Hne].
    + rewrite list_lookup_insert_eq; [done|]. by eapply lookup_lt_Some.
    + by rewrite list_lookup_insert_ne.
  - destruct (decide (h' = h)) as [->|Hne]; [by rewrite Hs|done].
Qed.

Lemma heap_update_this h f w : this (heap_update h f w) = this w.
Proof. unfold heap_update. by destruct (heap w !! h). Qed.

Lemma one_live_weaken w w' :
  socket (this w') = socket (this w) ->
  (forall h, heap_live w' h = true -> heap_live w h = true) ->
  one_live_handle w -> one_live_handle w'.
Proof. intros Hsock Hlive Hinv h Hh. rewrite Hsock. apply Hinv, Hlive, Hh. Qed.

Lemma one_live_frame w w' :
  transport_of w' = transport_of w -> one_live_handle w -> one_live_handle w'.
Proof.
  unfold transport_of. intros [= Hsock Hheap]. apply one_live_weaken; [done|].
  intros h. unfold heap_live. by rewrite Hheap.
Qed.

(** Changing a socket without reviving it keeps the invariant. *)
Lemma one_live_update h f w :
  (forall s, ws_live (f s) = true -> ws_live s = true) ->
  one_live_handle w -> one_live_handle (heap_update h f w).
Proof.
  intros Hf. apply one_live_weaken; [by rewrite heap_update_this|].
  intros h'. rewrite heap_live_update. destruct (decide (h' = h)) as [->|]; [|done].
  unfold heap_live. destruct (heap w !! h); [apply Hf|done].
Qed.

Lemma open_socket_one_live `{Runtime} url protocols w w' :
  socket_live w = false -> open_socket url protocols w = Some w' ->
  one_live_handle w -> one_live_handle w'.
Proof.
  unfold open_socket. intros Hdead Hopen Hinv h Hh.
  destruct (WebSocket_accepts url); [|done]. injection Hopen as <-.
  simpl in *. unfold heap_live in Hh. simpl in Hh.
  destruct (decide (h < length (heap w))) as [Hlt|Hge].
  - rewrite lookup_app_l in Hh by done.
    assert (Hlive : heap_live w h = true) by done.
    pose proof (Hinv _ Hlive) as Hheld. unfold socket_live in Hdead.
    rewrite Hheld in Hdead. congruence.
  - destruct (decide (h = length (heap w))) as [->|Hne]; [done|].
    rewrite lookup_ge_None_2 in Hh; [done|]. rewrite length_app. simpl. lia.
Qed.

Lemma core_connect_one_live `{Runtime} w :
  one_live_handle w -> one_live_handle (Core.connect w).1.
Proof.
  intros Hinv. unfold Core.connect.
  destruct (socket_live w) eqn:Hdead; [done|].
  match goal with |- context [match ?c with Some _ => _ | None => _ end] =>
    destruct c as [w'|] eqn:Hcreated end.
  - simpl. destruct (authStrategy (this w)) as [a|];
      [destruct (truthy_url (url a))|]; by eapply open_socket_one_live.
  - simpl. eapply one_live_frame; [|done]. by rewrite triggerEvent_spec.
Qed.

Lemma apply_headers_one_live hdrs w :
  one_live_handle w -> one_live_handle (Hooks.apply_headers hdrs w).
Proof.
  unfold Hooks.apply_headers. destruct (socket (this w)) as [h|]; [|done].
  revert w. induction hdrs as [|[k v] hdrs IH]; intros w Hinv; simpl; [done|].
  apply IH. apply one_live_update; [|done]. by intros [].
Qed.

Lemma hooks_connect_one_live `{Runtime} w :
  one_live_handle w -> one_live_handle (Hooks.connect w).1.
Proof.
  intros Hinv. unfold Hooks.connect.
  destruct (socket_live w) eqn:Hdead; [done|].
  destruct (authStrategy (this w)) as [a|].
  - destruct (open_socket _ (protocols a) w) as [w'|] eqn:Hopen; [|done].
    assert (one_live_handle w') by by eapply open_socket_one_live.
    destruct (headers a) as [hdrs|]; [|done].
    destruct WebSocket_setRequestHeader; [|done].
    simpl. by apply apply_headers_one_live.
  - destruct (open_socket _ None w) as [w'|] eqn:Hopen; [|done].
    simpl. by eapply open_socket_one_live.
Qed.

(** After [close()] on the socket the client holds, no socket is live. *)
Lemma close_held_none_live h w :
  socket (this w) = Some h -> one_live_handle w ->
  forall h', heap_live (heap_update h ws_close w) h' = false.
Proof.
  intros Hsock Hinv h'. rewrite heap_live_update.
  destruct (decide (h' = h)) as [->|Hne].
  - destruct (heap w !! h) as [s|]; [|done].
    unfold ws_close, ws_live. destruct (readyState s) eqn:Hr; simpl; by rewrite ?Hr.
  - destruct (heap_live w h') eqn:Hlive; [|done].
    apply Hinv in Hlive. congruence.
Qed.

Lemma core_disconnect_one_live w :
  one_live_handle w -> one_live_handle (Core.disconnect w).
Proof.
  intros Hinv. unfold Core.disconnect.
  destruct (socket (this w)) as [h|] eqn:Hsock; [|done].
  intros h' Hh'. exfalso.
  pose proof (close_held_none_live h (assign (set_autoReconnect false) w)) as Hnone.
  simpl in Hnone. specialize (Hnone Hsock).
  change (heap_live (heap_update h ws_close (assign (set_autoReconnect false) w)) h'
          = true) in Hh'.
  rewrite Hnone in Hh'; [done|]. intros h0. apply Hinv.
Qed.

Lemma hooks_disconnect_one_live w :
  one_live_handle w -> one_live_handle (Hooks.disconnect w).
Proof.
  intros Hinv. unfold Hooks.disconnect.
  destruct (socket (this w)) as [h|] eqn:Hsock; [|done].
  intros h' Hh'. exfalso.
  pose proof (close_held_none_live h (assign (set_autoReconnect false) w)) as Hnone.
  simpl in Hnone. specialize (Hnone Hsock).
  rewrite Hnone in Hh'; [done|]. intros h0. apply Hinv.
Qed.

Lemma sendCommand_one_live `{Runtime} action data w :
  one_live_handle w -> one_live_handle (sendCommand action data w).1.
Proof.
  intros Hinv. unfold sendCommand.
  destruct (connected (this w)); simpl; [|done].
  destruct (JSON_stringify _) as [text|]; [|done].
  destruct (socket (this w)) as [h|] eqn:Hsock; [|done].
  destruct (heap w !! h) as [s|] eqn:Hs; [|done].
  destruct (ws_send text s) as [s'|] eqn:Hsend; [|done]. simpl.
  assert (Heq : set_heap (<[h:=s']> (heap w)) w = heap_update h (fun _ => s') w).
  { unfold heap_update. by rewrite Hs. }
  rewrite Heq. apply (one_live_weaken w); [by rewrite heap_update_this| |done].
  intros h'. rewrite heap_live_update. destruct (decide (h' = h)) as [->|]; [|done].
  unfold heap_live. rewrite Hs. unfold ws_send in Hsend.
  destruct (readyState s) eqn:Hr; [done|..]; injection Hsend as <-;
    unfold ws_live; simpl; by rewrite Hr.
Qed.

Lemma on_transport event callback w : transport_of (on event callback w) = transport_of w.
Proof. by rewrite on_spec. Qed.

Lemma core_unsubscribe_transport event callback w :
  transport_of (Core.unsubscribe event callback w) = transport_of w.
Proof. unfold Core.unsubscribe. by destruct (eventHandlers (this w) !! event). Qed.

Lemma hooks_unsubscribe_transport event callback w :
  transport_of (Hooks.unsubscribe event callback w).1 = transport_of w.
Proof. unfold Hooks.unsubscribe. by destruct (eventHandlers (this w) !! event). Qed.

Lemma ready_in_lookup states h w :
  ready_in states h w = true ->
  exists s, heap w !! h = Some s /\ readyState s ∈ states.
Proof.
  unfold ready_in. destruct (heap w !! h) as [s|]; [|done].
  intros Hin. apply bool_decide_eq_true_1 in Hin. eauto.
Qed.

(** The transport opening a socket that was connecting revives nothing. *)
Lemma socket_opens_one_live h w :
  ready_in [CONNECTING] h w = true ->
  one_live_handle w -> one_live_handle (heap_update h (ws_set_readyState OPEN) w).
Proof.
  intros Hready. apply ready_in_lookup in Hready as (s & Hs & Hin).
  apply list_elem_of_singleton in Hin.
  apply one_live_weaken; [by rewrite heap_update_this|].
  intros h'. rewrite heap_live_update. destruct (decide (h' = h)) as [->|]; [|done].
  intros _. unfold heap_live, ws_live. by rewrite Hs, Hin.
Qed.

Lemma set_timers_one_live ts w : one_live_handle w -> one_live_handle (set_timers ts w).
Proof. by apply one_live_frame. Qed.

Lemma core_step_one_live `{Runtime} `{MessageTypes} a w w' :
  Core.step a w = Some w' -> one_live_handle w -> one_live_handle w'.
Proof.
  intros Hstep Hinv.
  destruct (core_listeners_transport w) as (_ & Hmessage & _ & Herror).
  destruct a as [| |action data|event callback|event callback|h|h data|h code reason|h|i];
    simpl in Hstep.
  - injection Hstep as <-. by apply core_connect_one_live.
  - injection Hstep as <-. by apply core_disconnect_one_live.
  - injection Hstep as <-. by apply sendCommand_one_live.
  - injection Hstep as <-. eapply one_live_frame; [apply on_transport|done].
  - injection Hstep as <-. eapply one_live_frame; [apply core_unsubscribe_transport|done].
  - destruct (ready_in [CONNECTING] h w) eqn:Hready; [|done]. injection Hstep as <-.
    eapply one_live_frame; [apply core_listeners_transport|].
    by apply socket_opens_one_live.
  - destruct (ready_in _ h w); [|done]. injection Hstep as <-.
    eapply one_live_frame; [apply Hmessage|done].
  - destruct (ready_in _ h w); [|done]. injection Hstep as <-.
    eapply one_live_frame; [apply core_listeners_transport|].
    apply one_live_update; [|done]. by intros [].
  - destruct (ready_in _ h w); [|done]. injection Hstep as <-.
    eapply one_live_frame; [apply Herror|done].
  - unfold Core.timer_fires in Hstep. destruct (timers w !! i); [|done].
    injection Hstep as <-. by apply core_connect_one_live, set_timers_one_live.
Qed.

Lemma hooks_step_one_live `{Runtime} `{MessageTypes} a w w' :
  Hooks.step a w = Some w' -> one_live_handle w -> one_live_handle w'.
Proof.
  intros Hstep Hinv.
  destruct (hooks_listeners_transport w) as (_ & Hmessage & _ & Herror).
  destruct a as [| |action data|event callback|event callback|h|h data|h code reason|h|i];
    simpl in Hstep.
  - injection Hstep as <-. by apply hooks_connect_one_live.
  - injection Hstep as <-. by apply hooks_disconnect_one_live.
  - injection Hstep as <-. by apply sendCommand_one_live.
  - injection Hstep as <-. eapply one_live_frame; [apply on_transport|done].
  - injection Hstep as <-. eapply one_live_frame; [apply hooks_unsubscribe_transport|done].
  - destruct (ready_in [CONNECTING] h w) eqn:Hready; [|done]. injection Hstep as <-.
    eapply one_live_frame; [apply hooks_listeners_transport|].
    by apply socket_opens_one_live.
  - destruct (ready_in _ h w); [|done]. injection Hstep as <-.
    eapply one_live_frame; [apply Hmessage|done].
  - destruct (ready_in _ h w); [|done]. injection Hstep as <-.
    eapply one_live_frame; [apply hooks_listeners_transport|].
    apply one_live_update; [|done]. by intros [].
  - destruct (ready_in _ h w); [|done]. injection Hstep as <-.
    eapply one_live_frame; [apply Herror|done].
  - unfold Hooks.timer_fires in Hstep. destruct (timers w !! i); [|done].
    injection Hstep as <-. by apply hooks_connect_one_live, set_timers_one_live.
Qed.

Lemma core_reachable_one_live `{Runtime} `{MessageTypes} w :
  Core.reachable w -> one_live_handle w.
Proof.
  induction 1 as [serverUrl options|a w w' _ IH Hstep].
  - intros h Hh. done.
  - by eapply core_step_one_live.
Qed.

Lemma hooks_reachable_one_live `{Runtime} `{MessageTypes} w :
  Hooks.reachable w -> one_live_handle w.
Proof.
  induction 1 as [serverUrl options p l t k|a w w' _ IH Hstep].
  - intros h Hh. done.
  - by eapply hooks_step_one_live.
Qed.

(** C6. In every world a client can reach, at most one of the sockets it
    has created is opening or open, and that one is the socket it holds.
    When [connect] is called while the held socket is opening or open it
    returns at once, false in [client/ShoehiveClient.js] and nothing in
    [hooks/ShoehiveClient.js], and the whole world is as before: no socket
    is created, and the handle, the connected flag, the attempt counter and
    the event table are unchanged. *)
Theorem connect_rejected_while_live `{Runtime} `{MessageTypes} :
  (forall w, socket_live w = true ->
     Core.connect w = (w, false) /\ Hooks.connect w = (w, Normal ())) /\
  (forall w, Core.reachable w \/ Hooks.reachable w ->
     forall h1 h2, heap_live w h1 = true -> heap_live w h2 = true ->
       h1 = h2 /\ socket (this w) = Some h1).
Proof.
  split.
  - intros w Hlive. unfold Core.connect, Hooks.connect. by rewrite Hlive.
  - intros w Hreach h1 h2 Hh1 Hh2.
    assert (Hinv : one_live_handle w).
    { destruct Hreach; [by apply core_reachable_one_live
                       |by apply hooks_reachable_one_live]. }
    pose proof (Hinv _ Hh1). pose proof (Hinv _ Hh2). split; congruence.
Qed.

Lemma connect_rejected_while_live_witness :
  let w := (@Core.connect sample_runtime (new_world "ws://host" default_options)).1 in
  socket_live w = true /\
  heap w = [new_WebSocket "ws://host" None] /\
  @Core.connect sample_runtime w = (w, false) /\
  @Hooks.connect sample_runtime w = (w, Normal ()).
Proof.
  intros w.
  assert (Hlive : socket_live w = true) by reflexivity.
  split; [exact Hlive|]. split; [reflexivity|].
  exact (proj1 (@connect_rejected_while_live sample_runtime literal_types) w Hlive).
Defined.

(** ** Reconnection *)

(** What a successful [connect] does: one new socket, still connecting, at
    the end of the heap, and the client holds it. *)
Lemma core_connect_opens `{Runtime} w :
  socket_live w = false -> WebSocket_accepts (resolved_url (this w)) = true ->
  exists protocols,
    Core.connect w =
    (assign (set_socket (Some (length (heap w))))
       (set_heap (heap w ++ [new_WebSocket (resolved_url (this w)) protocols]) w), true).
Proof.
  intros Hdead Hok. unfold Core.connect, resolved_url in *. rewrite Hdead.
  destruct (authStrategy (this w)) as [a|]; [destruct (truthy_url (url a))|];
    unfold open_socket; rewrite Hok; eauto.
Qed.

Lemma apply_headers_last hdrs w l s :
  socket (this w) = Some (length l) -> heap w = l ++ [s] ->
  exists s', readyState s' = readyState s /\
             Hooks.apply_headers hdrs w = set_heap (l ++ [s']) w.
Proof.
  intros Hsock. unfold Hooks.apply_headers. rewrite Hsock. clear Hsock.
  revert w s. induction hdrs as [|[k v] hdrs IH]; intros w s Hheap; simpl.
  - exists s. split; [done|]. rewrite <- Hheap. by destruct w.
  - assert (Hupd : heap_update (length l) (ws_setRequestHeader k v) w =
                   set_heap (l ++ [ws_setRequestHeader k v s]) w).
    { unfold heap_update. rewrite Hheap.
      rewrite list_lookup_middle by done. f_equal.
      rewrite insert_app_r_alt by done. by rewrite Nat.sub_diag. }
    rewrite Hupd.
    destruct (IH (set_heap (l ++ [ws_setRequestHeader k v s]) w)
                (ws_setRequestHeader k v s) eq_refl) as (s' & Hr & ->).
    exists s'. split; [done|]. done.
Qed.

Lemma hooks_connect_opens `{Runtime} w :
  socket_live w = false -> WebSocket_accepts (resolved_url (this w)) = true ->
  exists s,
    readyState s = CONNECTING /\
    Hooks.connect w =
    (assign (set_socket (Some (length (heap w)))) (set_heap (heap w ++ [s]) w), Normal ()).
Proof.
  intros Hdead Hok. unfold Hooks.connect, resolved_url in *. rewrite Hdead.
  destruct (authStrategy (this w)) as [a|]; unfold open_socket; rewrite Hok.
  - destruct (headers a) as [hdrs|];
      [|eexists; split; [|reflexivity]; reflexivity].
    destruct WebSocket_setRequestHeader;
      [|eexists; split; [|reflexivity]; reflexivity].
    edestruct (apply_headers_last hdrs) as (s' & Hr & ->); [| |exists s'; split];
      [reflexivity|reflexivity|exact Hr|done].
  - eexists; split; [|reflexivity]; reflexivity.
Qed.










(** The scenario of the specification: at most two attempts from a base
    delay of 100 ms arm the timer at 100 ms and at 150 ms. *)
Example backoff_100_150 :
  Forall2 Qeq (backoff (100 # 1)%Q 0 2) [(100 # 1)%Q; (150 # 1)%Q].
Proof. repeat constructor. Qed.

(** ** A retry that outlives [disconnect] *)

Lemma heap_update_frame h f w :
  timers (heap_update h f w) = timers w /\
  length (heap (heap_update h f w)) = length (heap w).
Proof.
  unfold heap_update. destruct (heap w !! h); [|done]. simpl.
  by rewrite length_insert.
Qed.

Lemma new_socket_live l s w :
  readyState s = CONNECTING ->
  socket_live (assign (set_socket (Some (length l))) (set_heap (l ++ [s]) w)) = true.
Proof.
  intros Hr. unfold socket_live, heap_live. simpl.
  rewrite list_lookup_middle by done. unfold ws_live. by rewrite Hr.
Qed.

(** C2 on the code. The timer callback is [() => this.connect()], and
    [connect] does not look at [autoReconnect]. So when [disconnect] runs
    while the client holds a socket and a retry is pending, the timer that
    goes off afterwards still opens a new socket (the URL being one the
    transport accepts): the heap grows by one, the client holds the new
    socket, and it is connecting, although auto-reconnect is off. Both
    variants behave so. *)
Theorem stale_retry_connects `{Runtime} i w :
  is_Some (timers w !! i) -> socket (this w) <> None ->
  WebSocket_accepts (resolved_url (this w)) = true ->
  forall fire,
    fire = Core.timer_fires i (Core.disconnect w) \/
    fire = Hooks.timer_fires i (Hooks.disconnect w) ->
    exists w',
      fire = Some w' /\ autoReconnect (this w') = false /\
      length (heap w') = S (length (heap w)) /\
      socket (this w') = Some (length (heap w)) /\ socket_live w' = true.
Proof.
  intros [delay Hpending] Hheld Hok fire Hfire.
  destruct (socket (this w)) as [h|] eqn:Hsock; [clear Hheld|done].
  set (wa := assign (set_autoReconnect false) w).
  destruct (heap_update_frame h ws_close wa) as [Htimers Hlen].
  destruct Hfire as [-> | ->].
  - unfold Core.timer_fires, Core.disconnect. rewrite Hsock. fold wa.
    simpl. rewrite Htimers. simpl. rewrite Hpending.
    set (wt := set_timers _ _).
    destruct (core_connect_opens wt) as (protocols & Hconnect).
    { unfold wt. done. }
    { unfold wt. simpl. by rewrite heap_update_this. }
    eexists. split; [reflexivity|]. rewrite Hconnect. simpl.
    split; [unfold wt; simpl; by rewrite heap_update_this|].
    split; [rewrite length_app; unfold wt; simpl; rewrite Hlen; simpl; lia|].
    split; [unfold wt; simpl; by rewrite Hlen|].
    by apply new_socket_live.
  - unfold Hooks.timer_fires, Hooks.disconnect. rewrite Hsock. fold wa.
    rewrite Htimers. simpl. rewrite Hpending.
    set (wt := set_timers _ _).
    destruct (hooks_connect_opens wt) as (s & Hr & Hconnect).
    { unfold wt, socket_live. simpl. rewrite heap_update_this. simpl. rewrite Hsock.
      change (heap_live (heap_update h ws_close wa) h = false).
      rewrite heap_live_update, decide_True by done.
      destruct (heap wa !! h) as [s0|]; [|done].
      unfold ws_close, ws_live. destruct (readyState s0) eqn:Hr; simpl; by rewrite ?Hr. }
    { unfold wt. simpl. by rewrite heap_update_this. }
    eexists. split; [reflexivity|]. rewrite Hconnect. simpl.
    split; [unfold wt; simpl; by rewrite heap_update_this|].
    split; [rewrite length_app; unfold wt; simpl; rewrite Hlen; simpl; lia|].
    split; [unfold wt; simpl; by rewrite Hlen|].
    by apply new_socket_live.
Qed.

(** The failing run: connect, the socket closes and a retry is armed, the
    caller disconnects, the timer goes off. A second socket is opened. *)
Lemma stale_retry_connects_witness :
  let w0 := new_world "ws://host" default_options in
  exists w w',
    @Core.run sample_runtime literal_types [CallConnect; SocketClose 0 1006 ""] w0 = Some w /\
    timers w = [((1000 # 1) * pow_1_5 0)%Q] /\ socket (this w) = Some 0 /\
    @Core.run sample_runtime literal_types [CallDisconnect; TimerFires 0] w = Some w' /\
    autoReconnect (this w') = false /\ length (heap w') = 2 /\
    socket (this w') = Some 1 /\ socket_live w' = true.
Proof.
  intros w0.
  set (w := @Core.step sample_runtime literal_types (SocketClose 0 1006 "")
              (@Core.connect sample_runtime w0).1).
  assert (Hw : w = Some
    (@Core.on_close 1006 ""
       (heap_update 0 (ws_set_readyState CLOSED) (@Core.connect sample_runtime w0).1)))
    by reflexivity.
  set (w1 := Core.on_close 1006 ""
               (heap_update 0 (ws_set_readyState CLOSED)
                  (@Core.connect sample_runtime w0).1)) in Hw.
  assert (Hpending : is_Some (timers w1 !! 0)) by (eexists; reflexivity).
  assert (Hheld : socket (this w1) <> None) by discriminate.
  destruct (@stale_retry_connects sample_runtime 0 w1 Hpending Hheld eq_refl _
              (or_introl eq_refl)) as (w' & Hfire & Hauto & Hlen & Hsock & Hlive).
  exists w1, w'. split; [exact Hw|]. split; [reflexivity|]. split; [reflexivity|].
  split; [exact Hfire|]. split; [exact Hauto|]. split; [exact Hlen|].
  split; [exact Hsock|exact Hlive].
Defined.

(** ** What one call or event may change *)

Lemma bounded_same w w' :
  this w' = this w -> scheduled w' = scheduled w -> bounded_change w w'.
Proof.
  intros Hthis Hsched. unfold bounded_change. rewrite Hthis, Hsched.
  repeat split; auto.
Qed.

Lemma with_headers_spec hdrs s :
  with_headers hdrs s =
  {| ws_url := ws_url s; ws_protocols := ws_protocols s;
     ws_headers := ws_headers s ++ hdrs;
     readyState := readyState s; ws_sent := ws_sent s |}.
Proof.
  unfold with_headers. revert s. induction hdrs as [|[k v] hdrs IH]; intros s; simpl.
  - rewrite app_nil_r. by destruct s.
  - rewrite IH. simpl. by rewrite <- app_assoc.
Qed.

Lemma apply_headers_result hdrs w l s :
  socket (this w) = Some (length l) -> heap w = l ++ [s] ->
  Hooks.apply_headers hdrs w = set_heap (l ++ [with_headers hdrs s]) w.
Proof.
  intros Hsock. unfold Hooks.apply_headers, with_headers. rewrite Hsock. clear Hsock.
  revert w s. induction hdrs as [|[k v] hdrs IH]; intros w s Hheap; simpl.
  - rewrite <- Hheap. by destruct w.
  - assert (Hupd : heap_update (length l) (ws_setRequestHeader k v) w =
                   set_heap (l ++ [ws_setRequestHeader k v s]) w).
    { unfold heap_update. rewrite Hheap.
      rewrite list_lookup_middle by done. f_equal.
      rewrite insert_app_r_alt by done. by rewrite Nat.sub_diag. }
    rewrite Hupd. by rewrite (IH _ (ws_setRequestHeader k v s)).
Qed.


(** A [connect] that gets past the guard and the WebSocket constructor, in
    both classes. *)
Lemma connect_success `{Runtime} w :
  socket_live w = false ->
  WebSocket_accepts (resolved_url (this w)) = true ->
  Core.connect w =
    (connected_with
       (new_WebSocket (resolved_url (this w)) (resolved_protocols (this w))) w, true) /\
  Hooks.connect w =
    (connected_with
       (with_headers (if WebSocket_setRequestHeader then resolved_headers (this w) else [])
          (new_WebSocket (resolved_url (this w)) (resolved_protocols (this w)))) w,
     Normal ()).
Proof.
  intros Hdead Hok.
  unfold Core.connect, Hooks.connect, resolved_url, resolved_protocols,
    resolved_headers in *.
  rewrite Hdead. split.
  - destruct (authStrategy (this w)) as [a|]; [destruct (truthy_url (url a))|];
      unfold open_socket; by rewrite Hok.
  - destruct (authStrategy (this w)) as [a|]; unfold open_socket; rewrite Hok.
    + destruct (headers a) as [hdrs|]; simpl.
      * destruct WebSocket_setRequestHeader; [|done].
        by erewrite apply_headers_result; [|reflexivity|reflexivity].
      * by destruct WebSocket_setRequestHeader.
    + by destruct WebSocket_setRequestHeader.
Qed.

(** X10. A [connect] that passes the guard, with a URL the transport
    accepts, creates exactly one socket, in connecting state, and holds it.
    Its URL is the one of the authentication strategy when that is a
    non-empty string and the server URL otherwise; its sub-protocols are
    those of the strategy. [client/ShoehiveClient.js] returns true and never
    sets a header; [hooks/ShoehiveClient.js] sets the headers of the
    strategy, in order, exactly when the transport has [setRequestHeader]. *)
Theorem connect_opens_socket `{Runtime} w :
  socket_live w = false ->
  WebSocket_accepts (resolved_url (this w)) = true ->
  Core.connect w =
    (connected_with
       {| ws_url := resolved_url (this w);
          ws_protocols := resolved_protocols (this w);
          ws_headers := [];
          readyState := CONNECTING; ws_sent := [] |} w, true) /\
  Hooks.connect w =
    (connected_with
       {| ws_url := resolved_url (this w);
          ws_protocols := resolved_protocols (this w);
          ws_headers := if WebSocket_setRequestHeader
                        then resolved_headers (this w) else [];
          readyState := CONNECTING; ws_sent := [] |} w, Normal ()) /\
  socket_live (Core.connect w).1 = true /\ socket_live (Hooks.connect w).1 = true /\
  length (heap (Core.connect w).1) = S (length (heap w)) /\
  length (heap (Hooks.connect w).1) = S (length (heap w)).
Proof.
  intros Hdead Hok. destruct (connect_success w Hdead Hok) as [Hc Hh].
  rewrite Hc, Hh, with_headers_spec. simpl.
  split; [done|]. split; [done|].
  split; [by apply new_socket_live|]. split; [by apply new_socket_live|].
  rewrite !length_app. simpl. lia.
Qed.

Lemma connect_opens_socket_witness :
  let options :=
    {| opt_maxReconnectAttempts := None; opt_reconnectDelay := None;
       opt_autoReconnect := None;
       opt_authStrategy :=
         Some {| url := Some "ws://host?token=abc"; protocols := Some ["token"];
                 headers := Some [("Authorization", "Bearer abc")] |} |} in
  let w := new_world "ws://host" options in
  heap (@Core.connect strict_runtime w).1 =
    [new_WebSocket "ws://host?token=abc" (Some ["token"])] /\
  heap (@Hooks.connect strict_runtime w).1 =
    [with_headers [("Authorization", "Bearer abc")]
       (new_WebSocket "ws://host?token=abc" (Some ["token"]))].
Proof.
  intros options w.
  destruct (@connect_opens_socket strict_runtime w eq_refl eq_refl) as (Hc & Hh & _).
  rewrite Hc, Hh. split; reflexivity.
Defined.

(** A [connect] whose URL the WebSocket constructor rejects, in both
    classes. *)
Lemma connect_failure `{Runtime} w :
  socket_live w = false ->
  WebSocket_accepts (resolved_url (this w)) = false ->
  Core.connect w =
    (triggerEvent "error"
       (PError "connectionError" "Failed to create WebSocket connection") w, false) /\
  Hooks.connect w = (w, Throw SyntaxError).
Proof.
  intros Hdead Hbad.
  unfold Core.connect, Hooks.connect, resolved_url in *. rewrite Hdead.
  split.
  - destruct (authStrategy (this w)) as [a|]; [destruct (truthy_url (url a))|];
      unfold open_socket; by rewrite Hbad.
  - destruct (authStrategy (this w)) as [a|]; unfold open_socket; by rewrite Hbad.
Qed.

(** X9. A [connect] that passes the guard with a URL the WebSocket
    constructor rejects creates no socket and leaves the client, the timers
    and the heap as they were. [client/ShoehiveClient.js] catches the
    exception, fires exactly one "error" event of kind connectionError,
    which reaches the callbacks registered for "error", and returns false;
    [hooks/ShoehiveClient.js] has no [try] and the SyntaxError reaches the
    caller, with the world untouched. *)
Theorem connect_rejected_url `{Runtime} w :
  socket_live w = false ->
  WebSocket_accepts (resolved_url (this w)) = false ->
  ((Core.connect w).2 = false /\
   this (Core.connect w).1 = this w /\ heap (Core.connect w).1 = heap w /\
   timers (Core.connect w).1 = timers w /\
   scheduled (Core.connect w).1 = scheduled w /\
   fired (Core.connect w).1 =
     fired w ++ [("error", PError "connectionError"
                             "Failed to create WebSocket connection")] /\
   invoked (Core.connect w).1 =
     invoked w ++
     map (fun cb => (cb, PError "connectionError"
                           "Failed to create WebSocket connection"))
       (handlers w "error")) /\
  Hooks.connect w = (w, Throw SyntaxError).
Proof.
  intros Hdead Hbad. destruct (connect_failure w Hdead Hbad) as [Hc Hh].
  split; [|exact Hh]. rewrite Hc, triggerEvent_spec. simpl. done.
Qed.

Lemma connect_effect `{Runtime} w w' :
  w' = (Core.connect w).1 \/ w' = (Hooks.connect w).1 ->
  scheduled w' = scheduled w /\ timers w' = timers w /\
  ((this w' = this w /\ heap w' = heap w) \/
   (exists s, readyState s = CONNECTING /\ socket_live w = false /\ w' = connected_with s w)).
Proof.
  intros Hw'. destruct (socket_live w) eqn:Hdead.
  { assert (w' = w) as ->.
    { destruct Hw' as [-> | ->]; unfold Core.connect, Hooks.connect; by rewrite Hdead. }
    split; [done|]. split; [done|]. by left. }
  destruct (WebSocket_accepts (resolved_url (this w))) eqn:Hok.
  - destruct (connect_success w Hdead Hok) as [Hc Hh].
    destruct Hw' as [-> | ->]; [rewrite Hc|rewrite Hh]; simpl;
      (split; [done|]; split; [done|]; right; eexists; split; [|split; [done|reflexivity]];
       by rewrite ?with_headers_spec).
  - destruct (connect_failure w Hdead Hok) as [Hc Hh].
    destruct Hw' as [-> | ->]; [rewrite Hc, triggerEvent_spec|rewrite Hh]; simpl;
      (split; [done|]; split; [done|]; by left).
Qed.

Lemma sendCommand_effect `{Runtime} action data w :
  this (sendCommand action data w).1 = this w /\
  scheduled (sendCommand action data w).1 = scheduled w /\
  timers (sendCommand action data w).1 = timers w /\
  length (heap (sendCommand action data w).1) = length (heap w).
Proof.
  unfold sendCommand.
  destruct (connected (this w)); simpl; [|done].
  destruct (JSON_stringify _) as [text|]; [|done].
  destruct (socket (this w)) as [h|]; [|done].
  destruct (heap w !! h) as [s|]; [|done].
  destruct (ws_send text s); [|done]. simpl. by rewrite length_insert.
Qed.

Lemma disconnect_effect w w' :
  w' = Core.disconnect w \/ w' = Hooks.disconnect w ->
  scheduled w' = scheduled w /\ timers w' = timers w /\
  length (heap w') = length (heap w) /\
  ((socket (this w) = None /\ w' = w) \/
   (socket (this w) <> None /\
    (this w' = set_socket None (set_autoReconnect false (this w)) \/
     this w' = set_autoReconnect false (this w)))).
Proof.
  intros Hw'.
  destruct (socket (this w)) as [h|] eqn:Hsock.
  - assert (Hupd : forall w0, scheduled (heap_update h ws_close w0) = scheduled w0 /\
                              timers (heap_update h ws_close w0) = timers w0 /\
                              length (heap (heap_update h ws_close w0)) = length (heap w0)).
    { intros w0. unfold heap_update. destruct (heap w0 !! h); [|done]. simpl.
      by rewrite length_insert. }
    destruct (Hupd (assign (set_autoReconnect false) w)) as (Hs & Ht & Hl).
    destruct Hw' as [-> | ->]; unfold Core.disconnect, Hooks.disconnect; rewrite Hsock;
      simpl; rewrite ?heap_update_this; simpl;
      (split; [exact Hs|]; split; [exact Ht|]; split; [exact Hl|]; right;
       split; [done|]; auto).
  - assert (w' = w) as ->.
    { destruct Hw' as [-> | ->]; unfold Core.disconnect, Hooks.disconnect;
        by rewrite Hsock. }
    repeat split; auto.
Qed.

Lemma handleMessage_effect `{MessageTypes} message w w' :
  w' = Core.handleMessage message w \/ w' = Hooks.handleMessage message w ->
  this w' = cached message (this w) /\ scheduled w' = scheduled w /\
  timers w' = timers w /\ heap w' = heap w.
Proof.
  intros [-> | ->].
  - rewrite core_handleMessage_cache_then_fire, !triggerEvent_spec. done.
  - destruct (hooks_handleMessage_cache_then_fire message w) as [f ->].
    rewrite call_if_set_spec, triggerEvent_spec. done.
Qed.

Lemma cached_bounded `{MessageTypes} message w w' :
  this w' = cached message (this w) -> scheduled w' = scheduled w ->
  bounded_change w w'.
Proof.
  intros Hthis Hsched. unfold bounded_change. rewrite Hthis, Hsched.
  unfold cached. repeat case_decide; simpl; repeat split; auto.
Qed.

Lemma on_close_bounded code reason w w' :
  w' = Core.on_close code reason w \/ w' = Hooks.on_close code reason w ->
  bounded_change w w'.
Proof.
  intros Hw'.
  assert (Hshape :
    (this w' = set_connected false (this w) /\ scheduled w' = scheduled w) \/
    (autoReconnect (this w) = true /\
     reconnectAttempts (this w) < maxReconnectAttempts (this w) /\
     this w' = set_reconnectAttempts (S (reconnectAttempts (this w)))
                 (set_connected false (this w)) /\
     exists delay, scheduled w' = scheduled w ++ [delay])).
  { destruct (autoReconnect (this w)
              && (reconnectAttempts (this w) <? maxReconnectAttempts (this w)))
      eqn:Hretry.
    - right. apply andb_true_iff in Hretry as [Hauto Hlt]. apply Nat.ltb_lt in Hlt.
      split; [done|]. split; [done|].
      destruct Hw' as [-> | ->];
        [rewrite core_on_close_spec | rewrite hooks_on_close_spec]; simpl;
        rewrite Hauto, (proj2 (Nat.ltb_lt _ _) Hlt); simpl; (split; [done|]);
        eexists; reflexivity.
    - left.
      destruct Hw' as [-> | ->];
        [rewrite core_on_close_spec | rewrite hooks_on_close_spec]; simpl;
        rewrite Hretry; done. }
  unfold bounded_change.
  destruct Hshape as [[-> ->]|(Hauto & Hlt & -> & delay & ->)]; simpl.
  - do 4 (split; [reflexivity|]). split; [by left|]. split; [by left|].
    split; [by left|]. done.
  - do 4 (split; [reflexivity|]). split; [by left|].
    split; [right; right; done|]. split; [right; split; [done|by exists delay]|]. done.
Qed.

Lemma on_open_bounded w w' :
  w' = Core.on_open w \/ w' = Hooks.on_open w -> bounded_change w w'.
Proof.
  intros [-> | ->]; unfold Core.on_open, Hooks.on_open;
    rewrite ?call_if_set_spec, triggerEvent_spec; unfold bounded_change; simpl;
    repeat split; auto.
Qed.

Lemma on_bounded event callback w : bounded_change w (on event callback w).
Proof.
  rewrite on_spec. unfold bounded_change. simpl. repeat split; auto.
  intros event' Hsome. destruct (decide (event = event')) as [->|Hne].
  - rewrite lookup_insert_eq. eauto.
  - by rewrite lookup_insert_ne.
Qed.

Lemma unsubscribe_bounded event callback w w' :
  w' = Core.unsubscribe event callback w \/ w' = (Hooks.unsubscribe event callback w).1 ->
  bounded_change w w'.
Proof.
  intros Hw'.
  destruct (eventHandlers (this w) !! event) as [callbacks|] eqn:Hev.
  - assert (Hthis : this w' = set_eventHandlers
        (<[event := filter (fun cb => other_than callback cb) callbacks]>
           (eventHandlers (this w))) (this w) /\ scheduled w' = scheduled w).
    { destruct Hw' as [-> | ->]; unfold Core.unsubscribe, Hooks.unsubscribe;
        by rewrite Hev. }
    destruct Hthis as [Hthis Hsched].
    unfold bounded_change. rewrite Hthis, Hsched. simpl. repeat split; auto.
    intros event' Hsome. destruct (decide (event = event')) as [->|Hne].
    + rewrite lookup_insert_eq. eauto.
    + by rewrite lookup_insert_ne.
  - assert (w' = w) as ->.
    { destruct Hw' as [-> | ->]; unfold Core.unsubscribe, Hooks.unsubscribe;
        by rewrite Hev. }
    by apply bounded_same.
Qed.

Lemma bounded_after_frame w w0 w' :
  this w0 = this w -> scheduled w0 = scheduled w ->
  bounded_change w0 w' -> bounded_change w w'.
Proof. unfold bounded_change. intros -> ->. done. Qed.

Lemma connect_bounded `{Runtime} w w' :
  w' = (Core.connect w).1 \/ w' = (Hooks.connect w).1 -> bounded_change w w'.
Proof.
  intros Hw'. destruct (connect_effect w w' Hw') as (Hs & _ & [[Ht _]|(s & _ & _ & ->)]).
  - by apply bounded_same.
  - unfold bounded_change. simpl. repeat split; auto.
Qed.

Lemma disconnect_bounded w w' :
  w' = Core.disconnect w \/ w' = Hooks.disconnect w -> bounded_change w w'.
Proof.
  intros Hw'.
  destruct (disconnect_effect w w' Hw') as (Hs & _ & _ & [[_ ->]|[_ [Ht|Ht]]]).
  - by apply bounded_same.
  - unfold bounded_change. rewrite Hs, Ht. simpl. repeat split; auto.
  - unfold bounded_change. rewrite Hs, Ht. simpl. repeat split; auto.
Qed.

Lemma heap_update_scheduled h f w : scheduled (heap_update h f w) = scheduled w.
Proof. unfold heap_update. by destruct (heap w !! h). Qed.

(** Every action of either class changes the client within these bounds. *)
Lemma step_bounded `{Runtime} `{MessageTypes} a w w' :
  Core.step a w = Some w' \/ Hooks.step a w = Some w' -> bounded_change w w'.
Proof.
  intros Hstep.
  destruct a as [| |action data|event callback|event callback|h|h data|h code reason|h|i].
  - apply connect_bounded. destruct Hstep as [[= <-]|[= <-]]; auto.
  - apply disconnect_bounded. destruct Hstep as [[= <-]|[= <-]]; auto.
  - destruct (sendCommand_effect action data w) as (Ht & Hs & _).
    destruct Hstep as [[= <-]|[= <-]]; by apply bounded_same.
  - destruct Hstep as [[= <-]|[= <-]]; apply on_bounded.
  - apply (unsubscribe_bounded event callback). destruct Hstep as [[= <-]|[= <-]]; auto.
  - simpl in Hstep. destruct (ready_in _ h w); [|by destruct Hstep].
    eapply bounded_after_frame;
      [apply (heap_update_this h (ws_set_readyState OPEN))
      |apply heap_update_scheduled|].
    apply on_open_bounded. destruct Hstep as [[= <-]|[= <-]]; auto.
  - simpl in Hstep. destruct (ready_in _ h w); [|by destruct Hstep].
    unfold Core.on_message, Hooks.on_message in Hstep.
    destruct (JSON_parse data) as [message|].
    + destruct (handleMessage_effect message w w') as (Ht & Hs & _).
      { destruct Hstep as [[= <-]|[= <-]]; auto. }
      by eapply cached_bounded.
    + destruct Hstep as [[= <-]|[= <-]]; apply bounded_same;
        by rewrite ?triggerEvent_spec.
  - simpl in Hstep. destruct (ready_in _ h w); [|by destruct Hstep].
    eapply bounded_after_frame;
      [apply (heap_update_this h (ws_set_readyState CLOSED))
      |apply heap_update_scheduled|].
    apply (on_close_bounded code reason). destruct Hstep as [[= <-]|[= <-]]; auto.
  - simpl in Hstep. destruct (ready_in _ h w); [|by destruct Hstep].
    destruct Hstep as [[= <-]|[= <-]]; apply bounded_same;
      unfold Core.on_error, Hooks.on_error; by rewrite triggerEvent_spec.
  - simpl in Hstep. unfold Core.timer_fires, Hooks.timer_fires in Hstep.
    destruct (timers w !! i); [|by destruct Hstep].
    eapply (bounded_after_frame w (set_timers (delete i (timers w)) w)); [done|done|].
    apply connect_bounded. destruct Hstep as [[= <-]|[= <-]]; auto.
Qed.

(** ** Invariants along runs *)

Lemma run_actions_invariant (step : Action -> World -> option World)
    (P : World -> Prop) :
  (forall a w w', step a w = Some w' -> P w -> P w') ->
  forall actions w w', run_actions step actions w = Some w' -> P w -> P w'.
Proof.
  intros Hstep actions. induction actions as [|a actions IH]; intros w w' Hrun HP.
  - by injection Hrun as <-.
  - simpl in Hrun. destruct (step a w) as [w1|] eqn:Ha; [|done].
    eapply IH; [exact Hrun|]. by eapply Hstep.
Qed.


Lemma hooks_reachable_run `{Runtime} `{MessageTypes} actions w w' :
  Hooks.reachable w -> Hooks.run actions w = Some w' -> Hooks.reachable w'.
Proof.
  intros Hreach Hrun.
  eapply (run_actions_invariant Hooks.step Hooks.reachable); [|exact Hrun|exact Hreach].
  intros a w0 w1 Hs Hr. by eapply Hooks.reachable_step.
Qed.



(** X3. No call and no event changes what the constructor configured: the
    server URL, the authentication strategy, the maximum number of attempts
    and the base delay are the same after any run of actions, in both
    classes. *)
Theorem configuration_is_fixed `{Runtime} `{MessageTypes} actions w w' :
  Core.run actions w = Some w' \/ Hooks.run actions w = Some w' ->
  serverUrl (this w') = serverUrl (this w) /\
  authStrategy (this w') = authStrategy (this w) /\
  maxReconnectAttempts (this w') = maxReconnectAttempts (this w) /\
  reconnectDelay (this w') = reconnectDelay (this w).
Proof.
  set (P := fun w' : World =>
    serverUrl (this w') = serverUrl (this w) /\
    authStrategy (this w') = authStrategy (this w) /\
    maxReconnectAttempts (this w') = maxReconnectAttempts (this w) /\
    reconnectDelay (this w') = reconnectDelay (this w)).
  assert (Hstep : forall a w0 w1,
    Core.step a w0 = Some w1 \/ Hooks.step a w0 = Some w1 -> P w0 -> P w1).
  { intros a w0 w1 Hs (H1 & H2 & H3 & H4).
    destruct (step_bounded a w0 w1 Hs) as (E1 & E2 & E3 & E4 & _).
    unfold P. rewrite E1, E2, E3, E4. done. }
  intros [Hrun | Hrun].
  - eapply (run_actions_invariant Core.step P); [|exact Hrun|by unfold P].
    intros. eapply Hstep; eauto.
  - eapply (run_actions_invariant Hooks.step P); [|exact Hrun|by unfold P].
    intros. eapply Hstep; eauto.
Qed.

Lemma configuration_is_fixed_witness :
  exists w,
    @Hooks.run sample_runtime literal_types
      [CallConnect; SocketOpen 0; CallDisconnect; SocketClose 0 1000 ""]
      (new_world "ws://host" default_options) = Some w /\
    maxReconnectAttempts (this w) = 5 /\ serverUrl (this w) = "ws://host".
Proof.
  destruct (@Hooks.run sample_runtime literal_types
              [CallConnect; SocketOpen 0; CallDisconnect; SocketClose 0 1000 ""]
              (new_world "ws://host" default_options)) as [w|] eqn:Hrun;
    [|vm_compute in Hrun; discriminate Hrun].
  exists w. split; [reflexivity|].
  destruct (@configuration_is_fixed sample_runtime literal_types _ _ _
              (or_intror Hrun)) as (Hurl & _ & Hmax & _).
  split; [exact Hmax|exact Hurl].
Defined.

(** X4. Nothing switches auto-reconnect back on. Once it is off, which is
    what [disconnect] does when the client holds a socket, it stays off
    through any run of calls and events, and no further retry timer is
    armed: the list of armed delays does not grow. *)
Theorem no_retry_armed_once_disabled `{Runtime} `{MessageTypes} actions w w' :
  autoReconnect (this w) = false ->
  Core.run actions w = Some w' \/ Hooks.run actions w = Some w' ->
  autoReconnect (this w') = false /\ scheduled w' = scheduled w.
Proof.
  intros Hoff.
  set (P := fun w' : World =>
    autoReconnect (this w') = false /\ scheduled w' = scheduled w).
  assert (Hstep : forall a w0 w1,
    Core.step a w0 = Some w1 \/ Hooks.step a w0 = Some w1 -> P w0 -> P w1).
  { intros a w0 w1 Hs [Hauto Hsched].
    destruct (step_bounded a w0 w1 Hs) as (_ & _ & _ & _ & Ha & _ & Hs' & _).
    split.
    - destruct Ha as [-> | ->]; done.
    - destruct Hs' as [-> | [Hon _]]; [done|congruence]. }
  intros [Hrun | Hrun].
  - eapply (run_actions_invariant Core.step P); [|exact Hrun|by unfold P].
    intros. eapply Hstep; eauto.
  - eapply (run_actions_invariant Hooks.step P); [|exact Hrun|by unfold P].
    intros. eapply Hstep; eauto.
Qed.

Lemma no_retry_armed_once_disabled_witness :
  let w := Core.disconnect
             (@Core.connect sample_runtime (new_world "ws://host" default_options)).1 in
  autoReconnect (this w) = false /\
  exists w',
    @Core.run sample_runtime literal_types
      [CallConnect; SocketClose 1 1006 ""; SocketClose 0 1006 ""] w = Some w' /\
    scheduled w' = [].
Proof.
  intros w. split; [reflexivity|].
  destruct (@Core.run sample_runtime literal_types
              [CallConnect; SocketClose 1 1006 ""; SocketClose 0 1006 ""] w)
    as [w'|] eqn:Hrun; [|vm_compute in Hrun; discriminate Hrun].
  exists w'. split; [reflexivity|].
  exact (proj2 (@no_retry_armed_once_disabled sample_runtime literal_types _ w _
                  eq_refl (or_introl Hrun))).
Defined.

(** X13. The list of an event, once created by [on], is never removed from
    the table. So the closure that [on] of [hooks/ShoehiveClient.js]
    returns, which reads the list without a check, does not throw however
    many calls and events lie between the subscription and its use. *)
Theorem unsubscribe_never_throws `{Runtime} `{MessageTypes} event callback actions w w' :
  Hooks.run actions (on event callback w) = Some w' ->
  (Hooks.unsubscribe event callback w').2 = Normal ().
Proof.
  intros Hrun.
  assert (Hsome : is_Some (eventHandlers (this w') !! event)).
  { eapply (run_actions_invariant Hooks.step
              (fun w0 => is_Some (eventHandlers (this w0) !! event))); [|exact Hrun|].
    - intros a w0 w1 Hs Hw0.
      destruct (step_bounded a w0 w1 (or_intror Hs)) as (_&_&_&_&_&_&_& Hdom).
      by apply Hdom.
    - rewrite on_handlers. eauto. }
  destruct Hsome as [callbacks Hev].
  unfold Hooks.unsubscribe. by rewrite Hev.
Qed.

Lemma unsubscribe_never_throws_witness :
  exists w',
    @Hooks.run sample_runtime literal_types
      [CallConnect; SocketOpen 0; CallUnsubscribe "tick" 3; CallDisconnect]
      (on "tick" 3 (new_world "ws://host" default_options)) = Some w' /\
    (Hooks.unsubscribe "tick" 3 w').2 = Normal ().
Proof.
  destruct (@Hooks.run sample_runtime literal_types
              [CallConnect; SocketOpen 0; CallUnsubscribe "tick" 3; CallDisconnect]
              (on "tick" 3 (new_world "ws://host" default_options)))
    as [w'|] eqn:Hrun; [|vm_compute in Hrun; discriminate Hrun].
  exists w'. split; [reflexivity|].
  exact (@unsubscribe_never_throws sample_runtime literal_types "tick" 3 _ _ _ Hrun).
Defined.

(** ** The constructor *)



(** ** Disconnecting *)


Lemma ws_close_dead s : ws_live (ws_close s) = false.
Proof.
  unfold ws_close, ws_live. destruct (readyState s) eqn:Hr; simpl; by rewrite ?Hr.
Qed.

(** [disconnect] on a client that holds a socket, in both classes. *)
Lemma disconnect_held w :
  socket (this w) <> None ->
  this (Core.disconnect w) = set_socket None (set_autoReconnect false (this w)) /\
  this (Hooks.disconnect w) = set_autoReconnect false (this w) /\
  socket_live (Hooks.disconnect w) = false.
Proof.
  intros Hheld. unfold Core.disconnect, Hooks.disconnect.
  destruct (socket (this w)) as [h|] eqn:Hsock; [clear Hheld|done].
  set (wa := assign (set_autoReconnect false) w).
  assert (Hthis : this (heap_update h ws_close wa) = set_autoReconnect false (this w))
    by apply heap_update_this.
  split; [simpl; by rewrite Hthis|]. split; [exact Hthis|].
  unfold socket_live. rewrite Hthis. simpl. rewrite Hsock.
  rewrite heap_live_update, decide_True by done.
  destruct (heap wa !! h); [apply ws_close_dead|done].
Qed.



(** X6. A command sent between [disconnect] and the close event, on a
    connection that was open: the connected flag is still true, so
    [sendCommand] goes on to the socket. In [client/ShoehiveClient.js] the
    handle is already null, the failure is caught, nothing is written and
    the result is false. In [hooks/ShoehiveClient.js] the handle is kept,
    the text is handed to the closing socket and the result is true. *)
Theorem sendCommand_after_disconnect `{Runtime} action data w h s text :
  connected (this w) = true -> socket (this w) = Some h -> heap w !! h = Some s ->
  readyState s = OPEN -> JSON_stringify (command action data) = Some text ->
  sendCommand action data (Core.disconnect w) = (Core.disconnect w, false) /\
  exists w',
    sendCommand action data (Hooks.disconnect w) = (w', true) /\
    heap w' !! h = Some (ws_take text (ws_set_readyState CLOSING s)).
Proof.
  intros Hon Hsock Hs Hr Htext. split.
  - unfold sendCommand, Core.disconnect. rewrite Hsock. simpl.
    rewrite heap_update_this. simpl. by rewrite Hon, Htext.
  - unfold sendCommand, Hooks.disconnect. rewrite Hsock.
    rewrite heap_update_this. simpl. rewrite Hon, Htext, Hsock. simpl.
    assert (Hlt : h < length (heap w)) by by eapply lookup_lt_Some.
    unfold heap_update. simpl. rewrite Hs. simpl.
    rewrite list_lookup_insert_eq by done.
    unfold ws_close, ws_send. rewrite Hr. simpl.
    eexists. split; [reflexivity|]. simpl.
    rewrite list_lookup_insert_eq; [done|]. by rewrite length_insert.
Qed.

Lemma sendCommand_after_disconnect_witness :
  exists w,
    @Hooks.run sample_runtime literal_types [CallConnect; SocketOpen 0]
      (new_world "ws://host" default_options) = Some w /\
    connected (this w) = true /\
    (@sendCommand sample_runtime "table:leave" [] (Core.disconnect w)).2 = false /\
    (@sendCommand sample_runtime "table:leave" [] (Hooks.disconnect w)).2 = true.
Proof.
  destruct (@Hooks.run sample_runtime literal_types [CallConnect; SocketOpen 0]
              (new_world "ws://host" default_options)) as [w|] eqn:Hrun;
    [|vm_compute in Hrun; discriminate Hrun].
  exists w. split; [reflexivity|].
  vm_compute in Hrun. injection Hrun as <-.
  match goal with |- connected (this ?w0) = true /\ _ => set (wv := w0) end.
  split; [reflexivity|].
  destruct (@sendCommand_after_disconnect sample_runtime "table:leave" [] wv 0
              (ws_set_readyState OPEN (new_WebSocket "ws://host" None)) "action"
              eq_refl eq_refl eq_refl eq_refl eq_refl)
    as [Hc (w' & Hh & _)].
  rewrite Hc, Hh. split; reflexivity.
Defined.

(** ** Opening and closing *)

Lemma on_open_this w w' :
  w' = Core.on_open w \/ w' = Hooks.on_open w ->
  this w' = set_reconnectAttempts 0 (set_connected true (this w)) /\
  scheduled w' = scheduled w /\ heap w' = heap w /\
  fired w' = fired w ++ [("connected", PUndefined)].
Proof.
  intros [-> | ->]; unfold Core.on_open, Hooks.on_open;
    by rewrite ?call_if_set_spec, triggerEvent_spec.
Qed.

(** X7. The open listener resets the attempt counter, so the backoff
    starts over after every successful connection: whatever the counter
    was, the first close after an open counts attempt 1 and arms the base
    delay [d * 1.5^0], auto-reconnect being on and the maximum at least 1. *)
Theorem backoff_restarts_after_open code reason w wo wc :
  wo = Core.on_open w /\ wc = Core.on_close code reason wo \/
  wo = Hooks.on_open w /\ wc = Hooks.on_close code reason wo ->
  autoReconnect (this w) = true -> 0 < maxReconnectAttempts (this w) ->
  reconnectAttempts (this wo) = 0 /\ connected (this wo) = true /\
  reconnectAttempts (this wc) = 1 /\ connected (this wc) = false /\
  scheduled wc = scheduled w ++ [(reconnectDelay (this w) * pow_1_5 0)%Q].
Proof.
  intros Hw Hauto Hmax.
  assert (Hopen : this wo = set_reconnectAttempts 0 (set_connected true (this w)) /\
                  scheduled wo = scheduled w).
  { destruct Hw as [[-> _] | [-> _]].
    - destruct (on_open_this w _ (or_introl eq_refl)) as (? & ? & _). done.
    - destruct (on_open_this w _ (or_intror eq_refl)) as (? & ? & _). done. }
  destruct Hopen as [Hthis Hsched].
  assert (Hlt : (0 <? maxReconnectAttempts (this w)) = true) by by apply Nat.ltb_lt.
  rewrite Hthis. simpl. split; [done|]. split; [done|].
  destruct Hw as [[_ ->] | [_ ->]];
    [rewrite core_on_close_spec | rewrite hooks_on_close_spec]; simpl;
    rewrite Hthis, Hsched; simpl; rewrite Hauto, Hlt; done.
Qed.

Lemma backoff_restarts_after_open_witness :
  let w := @Core.on_close 7%Z "" (@Core.on_close 7%Z ""
             (new_world "ws://host" default_options)) in
  reconnectAttempts (this w) = 2 /\
  scheduled (Core.on_close 1006 "" (Core.on_open w)) =
    scheduled w ++ [((1000 # 1) * pow_1_5 0)%Q].
Proof.
  intros w. split; [reflexivity|].
  assert (Hmax : 0 < maxReconnectAttempts (this w)) by (apply Nat.ltb_lt; reflexivity).
  exact (proj2 (proj2 (proj2 (proj2
    (backoff_restarts_after_open 1006%Z "" w _ _
       (or_introl (conj eq_refl eq_refl)) eq_refl Hmax))))).
Defined.

(** X8. When the socket the client holds opens, the open listener sets the
    connected flag and fires "connected" once, without payload; from then on
    a command whose object stringifies is handed to that socket and
    [sendCommand] returns true. Holds in both classes. *)
Theorem open_then_send `{Runtime} `{MessageTypes} h s action data text w w' :
  socket (this w) = Some h -> heap w !! h = Some s -> readyState s = CONNECTING ->
  JSON_stringify (command action data) = Some text ->
  Core.step (SocketOpen h) w = Some w' \/ Hooks.step (SocketOpen h) w = Some w' ->
  connected (this w') = true /\
  fired w' = fired w ++ [("connected", PUndefined)] /\
  sendCommand action data w' =
    (set_heap (<[h := ws_take text (ws_set_readyState OPEN s)]> (heap w')) w', true).
Proof.
  intros Hsock Hs Hr Htext Hstep.
  assert (Hready : ready_in [CONNECTING] h w = true).
  { unfold ready_in. rewrite Hs, Hr. apply bool_decide_eq_true_2. constructor. }
  set (wu := heap_update h (ws_set_readyState OPEN) w).
  assert (Hw' : w' = Core.on_open wu \/ w' = Hooks.on_open wu).
  { simpl in Hstep. rewrite Hready in Hstep.
    destruct Hstep as [[= <-] | [= <-]]; auto. }
  destruct (on_open_this wu w' Hw') as (Hthis & _ & Hheap & Hfired).
  assert (Hwu : this wu = this w /\ fired wu = fired w /\
                heap wu !! h = Some (ws_set_readyState OPEN s)).
  { unfold wu, heap_update. rewrite Hs. simpl. split; [done|]. split; [done|].
    apply list_lookup_insert_eq. by eapply lookup_lt_Some. }
  destruct Hwu as (Hthisu & Hfiredu & Hsu).
  split; [by rewrite Hthis|]. split; [by rewrite Hfired, Hfiredu|].
  unfold sendCommand. rewrite Hthis. simpl. rewrite Htext, Hthisu, Hsock, Hheap, Hsu.
  done.
Qed.

Lemma open_then_send_witness :
  let w := (@Core.connect sample_runtime (new_world "ws://host" default_options)).1 in
  exists w',
    @Core.step sample_runtime literal_types (SocketOpen 0) w = Some w' /\
    connected (this w') = true /\
    (@sendCommand sample_runtime "table:leave" [] w').2 = true.
Proof.
  intros w. eexists. split; [reflexivity|].
  destruct (@open_then_send sample_runtime literal_types 0
              (new_WebSocket "ws://host" None) "table:leave" [] "action" w _
              eq_refl eq_refl eq_refl eq_refl (or_introl eq_refl))
    as (Hon & _ & Hsend).
  split; [exact Hon|]. by rewrite Hsend.
Defined.

(** X18. The close listener does not ask which socket closed. After the
    close event of any socket the client created, the connected flag is
    false, and every command is dropped, with nothing written and nothing
    changed, until an open event sets the flag again. Holds in both
    classes. *)
Theorem commands_dropped_after_close `{Runtime} `{MessageTypes} h code reason w w' :
  Core.step (SocketClose h code reason) w = Some w' \/
  Hooks.step (SocketClose h code reason) w = Some w' ->
  connected (this w') = false /\
  forall action data, sendCommand action data w' = (w', false).
Proof.
  intros Hstep.
  assert (Hoff : connected (this w') = false).
  { simpl in Hstep. destruct (ready_in _ h w); [|by destruct Hstep].
    destruct Hstep as [[= <-] | [= <-]];
      [rewrite core_on_close_spec | rewrite hooks_on_close_spec]; simpl;
      by destruct (autoReconnect _ && _). }
  split; [exact Hoff|]. intros action data. unfold sendCommand. by rewrite Hoff.
Qed.

Lemma commands_dropped_after_close_witness :
  exists w w',
    @Hooks.run sample_runtime literal_types
      [CallConnect; SocketOpen 0; CallDisconnect; CallConnect; SocketOpen 1]
      (new_world "ws://host" default_options) = Some w /\
    connected (this w) = true /\ socket_live w = true /\
    @Hooks.step sample_runtime literal_types (SocketClose 0 1000 "") w = Some w' /\
    socket_live w' = true /\
    @sendCommand sample_runtime "table:leave" [] w' = (w', false).
Proof.
  destruct (@Hooks.run sample_runtime literal_types
              [CallConnect; SocketOpen 0; CallDisconnect; CallConnect; SocketOpen 1]
              (new_world "ws://host" default_options)) as [w|] eqn:Hrun;
    [|vm_compute in Hrun; discriminate Hrun].
  destruct (@Hooks.step sample_runtime literal_types (SocketClose 0 1000 "") w)
    as [w'|] eqn:Hstep;
    [|vm_compute in Hrun; injection Hrun as <-; vm_compute in Hstep; discriminate Hstep].
  exists w, w'. split; [reflexivity|].
  pose proof Hstep as Hval.
  vm_compute in Hrun. injection Hrun as <-.
  vm_compute in Hval. injection Hval as Hval.
  split; [reflexivity|]. split; [reflexivity|]. split; [exact Hstep|].
  split; [by rewrite <- Hval|].
  exact (proj2 (@commands_dropped_after_close sample_runtime literal_types
                  0 1000%Z "" _ _ (or_intror Hstep)) "table:leave" []).
Defined.

(** ** Cached slots over a stream of messages *)

Lemma cached_slots `{MessageTypes} message c :
  NoDup [PLAYER_STATE; LOBBY_STATE; TABLE_STATE] ->
  playerState (cached message c) =
    (if decide (type message = PLAYER_STATE) then Some message else playerState c) /\
  lobbyState (cached message c) =
    (if decide (type message = LOBBY_STATE) then Some message else lobbyState c) /\
  tableState (cached message c) =
    (if decide (type message = TABLE_STATE) then Some message else tableState c).
Proof.
  intros Hdistinct.
  apply NoDup_cons in Hdistinct as [Hp Hdistinct].
  apply NoDup_cons in Hdistinct as [Hl _].
  apply not_elem_of_cons in Hp as [Hpl Hp].
  apply not_elem_of_cons in Hp as [Hpt _].
  apply not_elem_of_cons in Hl as [Hlt _].
  unfold cached. repeat case_decide; simpl; try done; congruence.
Qed.

(** X11. After any sequence of messages has been handled, each cached slot
    holds the last message of its type in the sequence, or what it held
    before when the sequence has none of that type. Holds in both classes,
    the three type constants being distinct. *)
Theorem slots_hold_latest `{MessageTypes} messages w w' :
  NoDup [PLAYER_STATE; LOBBY_STATE; TABLE_STATE] ->
  w' = deliver Core.handleMessage messages w \/
  w' = deliver Hooks.handleMessage messages w ->
  playerState (this w') = latest PLAYER_STATE messages (playerState (this w)) /\
  lobbyState (this w') = latest LOBBY_STATE messages (lobbyState (this w)) /\
  tableState (this w') = latest TABLE_STATE messages (tableState (this w)).
Proof.
  intros Hdistinct. revert w.
  induction messages as [|message messages IH]; intros w Hw'.
  - destruct Hw' as [-> | ->]; done.
  - set (w1c := Core.handleMessage message w).
    set (w1h := Hooks.handleMessage message w).
    assert (Hnext : exists w1,
      this w1 = cached message (this w) /\
      (w' = deliver Core.handleMessage messages w1 \/
       w' = deliver Hooks.handleMessage messages w1)).
    { destruct Hw' as [-> | ->].
      - exists w1c. split; [apply core_handleMessage_this|by left].
      - exists w1h. split; [apply hooks_handleMessage_this|by right]. }
    destruct Hnext as (w1 & Hthis & Hrest).
    destruct (IH w1 Hrest) as (Hp & Hl & Ht).
    destruct (cached_slots message (this w) Hdistinct) as (Cp & Cl & Ct).
    rewrite Hp, Hl, Ht, Hthis, Cp, Cl, Ct. done.
Qed.

Lemma slots_hold_latest_witness :
  let w := new_world "ws://host" default_options in
  let m1 := {| type := "lobby:state"; rest := [("tables", JSArr [])] |} in
  let m2 := {| type := "table:state"; rest := [] |} in
  let m3 := {| type := "lobby:state"; rest := [] |} in
  lobbyState (this (deliver (@Core.handleMessage literal_types) [m1; m2; m3] w)) = Some m3 /\
  playerState (this (deliver (@Hooks.handleMessage literal_types) [m1; m2; m3] w)) = None.
Proof.
  intros w m1 m2 m3.
  assert (Hdistinct : NoDup [@PLAYER_STATE literal_types; @LOBBY_STATE literal_types;
                             @TABLE_STATE literal_types]).
  { apply (bool_decide_unpack _). vm_compute. exact I. }
  split.
  - exact (proj1 (proj2 (@slots_hold_latest literal_types [m1; m2; m3] w _ Hdistinct
                           (or_introl eq_refl)))).
  - exact (proj1 (@slots_hold_latest literal_types [m1; m2; m3] w _ Hdistinct
                    (or_intror eq_refl))).
Defined.

(** ** Callbacks a message reaches *)


Lemma cached_state_callback `{MessageTypes} message c :
  state_callback message (cached message c) = state_callback message c.
Proof. unfold state_callback, cached. repeat case_decide; reflexivity. Qed.


(** ** Subscribing and unsubscribing *)

Lemma filter_other_than_absent (callback : Callback) (l : list Callback) :
  callback ∉ l -> filter (fun cb => other_than callback cb) l = l.
Proof.
  induction l as [|cb l IH]; [done|]. intros Hnot.
  apply not_elem_of_cons in Hnot as [Hne Hnot].
  rewrite filter_other_than_ne by done. by rewrite IH.
Qed.

(** X12. Subscribing a callback that is not yet in the list of the event
    and then calling the returned closure gives back the list as it was,
    leaves the lists of all other events alone, and changes nothing else
    of the world; the only trace is that an event that had no list now has
    an empty one. Holds for the closure of both classes. *)
Theorem subscribe_unsubscribe_round_trip event (callback : Callback) w w' :
  callback ∉ handlers w event ->
  w' = Core.unsubscribe event callback (on event callback w) \/
  w' = (Hooks.unsubscribe event callback (on event callback w)).1 ->
  w' = assign (set_eventHandlers
                 (<[event := handlers w event]> (eventHandlers (this w)))) w /\
  handlers w' event = handlers w event /\
  (forall event', event' <> event ->
     eventHandlers (this w') !! event' = eventHandlers (this w) !! event') /\
  forall data, invoked (triggerEvent event data w') =
               invoked (triggerEvent event data w).
Proof.
  intros Hnot Hw'.
  assert (Hon : eventHandlers (this (on event callback w)) !! event =
                Some (handlers w event ++ [callback])) by apply on_handlers.
  assert (Hfilter : filter (fun cb => other_than callback cb)
                      (handlers w event ++ [callback]) = handlers w event).
  { rewrite filter_app, filter_other_than_absent by done.
    rewrite filter_other_than_eq. simpl. by rewrite app_nil_r. }
  assert (Heq : w' = assign (set_eventHandlers
                 (<[event := handlers w event]> (eventHandlers (this w)))) w).
  { destruct Hw' as [-> | ->]; unfold Core.unsubscribe, Hooks.unsubscribe;
      rewrite Hon, Hfilter; rewrite on_spec; unfold assign; simpl;
      by rewrite insert_insert_eq. }
  split; [exact Heq|]. rewrite Heq. simpl.
  split; [by rewrite lookup_insert_eq|]. split.
  - intros event' Hne. by rewrite lookup_insert_ne.
  - intros data. rewrite !triggerEvent_spec. simpl. by rewrite lookup_insert_eq.
Qed.

Lemma subscribe_unsubscribe_round_trip_witness :
  let w := on "tick" 1 (new_world "ws://host" default_options) in
  (2 ∉ handlers w "tick") /\
  handlers (Core.unsubscribe "tick" 2 (on "tick" 2 w)) "tick" = [1] /\
  handlers (Hooks.unsubscribe "tick" 2 (on "tick" 2 w)).1 "tick" = [1].
Proof.
  intros w.
  assert (Hnot : 2 ∉ handlers w "tick").
  { apply (bool_decide_unpack _). vm_compute. exact I. }
  split; [exact Hnot|]. split.
  - exact (proj1 (proj2 (subscribe_unsubscribe_round_trip "tick" 2 w _ Hnot
                           (or_introl eq_refl)))).
  - exact (proj1 (proj2 (subscribe_unsubscribe_round_trip "tick" 2 w _ Hnot
                           (or_intror eq_refl)))).
Defined.

(** ** The providers *)

Lemma on_handlers_at event event' callback w :
  handlers (on event callback w) event' =
  handlers w event' ++ (if decide (event = event') then [callback] else []).
Proof.
  destruct (decide (event = event')) as [->|Hne].
  - by rewrite on_handlers.
  - rewrite on_handlers_other by done. by rewrite app_nil_r.
Qed.

Lemma register_handlers `{MessageTypes} `{EventNames} hs w event :
  handlers (ContextProvider.register hs w) event =
  handlers w event ++ subscriptions hs event.
Proof.
  unfold ContextProvider.register, subscriptions.
  rewrite !on_handlers_at, <- !app_assoc. done.
Qed.

Lemma connect_handlers `{Runtime} w w' event :
  w' = (Core.connect w).1 \/ w' = (Hooks.connect w).1 ->
  handlers w' event = handlers w event.
Proof.
  intros Hw'. destruct (connect_effect w w' Hw') as (_ & _ & [[-> _]|(s & _ & _ & ->)]);
    done.
Qed.

(** X15. The second effect of [context/ShoehiveProvider.js] subscribes its
    five handlers, and its cleanup, written with [client.on] instead of the
    closures [on] returned, subscribes the same five again. So after the
    effect and its cleanup every list holds the provider's handlers twice,
    nothing having been removed, and an event then calls each of them
    twice. *)
Theorem provider_cleanup_subscribes_again `{Runtime} `{MessageTypes} `{EventNames}
    hs autoConnect w event data :
  let w1 := ContextProvider.effect hs autoConnect w in
  let w2 := ContextProvider.cleanup hs w1 in
  handlers w1 event = handlers w event ++ subscriptions hs event /\
  handlers w2 event =
    handlers w event ++ subscriptions hs event ++ subscriptions hs event /\
  invoked (triggerEvent event data w2) =
    invoked w2 ++
    map (fun cb => (cb, data))
      (handlers w event ++ subscriptions hs event ++ subscriptions hs event).
Proof.
  intros w1 w2.
  assert (Heffect : handlers w1 event = handlers w event ++ subscriptions hs event).
  { unfold w1, ContextProvider.effect. destruct autoConnect.
    - rewrite (connect_handlers _ _ event (or_introl eq_refl)).
      apply register_handlers.
    - apply register_handlers. }
  assert (Hcleanup : handlers w2 event =
               handlers w event ++ subscriptions hs event ++ subscriptions hs event).
  { unfold w2, ContextProvider.cleanup. rewrite register_handlers, Heffect.
    by rewrite <- app_assoc. }
  split; [exact Heffect|]. split; [exact Hcleanup|].
  by rewrite triggerEvent_invoked, Hcleanup.
Qed.

(** X16. The provider of the hooks directory creates its client only while
    [clientRef.current] is empty and calls [connect] right away, whatever
    [autoConnect] says. Its cleanup disconnects but keeps the ref, so when
    the effect runs again (a prop changed) it finds the old client and does
    nothing: the client then holds no opening or open socket, has
    auto-reconnect off, and no new socket is created. *)
Theorem hooks_provider_never_reconnects `{Runtime} p st :
  WebSocket_accepts
    (resolved_url (constructor (prop_serverUrl p) (props_options p))) = true ->
  exists w1,
    HooksProvider.effect p st None = (Some w1, Normal ()) /\
    socket_live w1 = true /\ length (heap w1) = 1 /\
    onConnectionChange (this w1) = Some (HooksProvider.setIsConnected st) /\
    forall p' st',
      HooksProvider.effect p' st' (HooksProvider.cleanup (Some w1)) =
        (Some (Hooks.disconnect w1), Normal ()) /\
      socket_live (Hooks.disconnect w1) = false /\
      autoReconnect (this (Hooks.disconnect w1)) = false /\
      length (heap (Hooks.disconnect w1)) = 1.
Proof.
  intros Hok. unfold HooksProvider.effect.
  set (w0 := assign _ (new_world (prop_serverUrl p) _)).
  assert (Hdead : socket_live w0 = false) by done.
  destruct (connect_success w0 Hdead Hok) as [_ Hconnect].
  rewrite Hconnect. simpl.
  eexists. split; [reflexivity|].
  split; [apply new_socket_live; by rewrite with_headers_spec|].
  split; [done|]. split; [done|].
  intros p' st'. split; [done|].
  match goal with |- context [Hooks.disconnect ?w] => set (w1 := w) end.
  destruct (disconnect_held w1) as (_ & Hthis & Hlive); [discriminate|].
  destruct (disconnect_effect w1 _ (or_intror eq_refl)) as (_ & _ & Hlen & _).
  split; [exact Hlive|]. split; [by rewrite Hthis|by rewrite Hlen].
Qed.

Lemma hooks_provider_never_reconnects_witness :
  let st := {| HooksProvider.setIsConnected := 1; HooksProvider.setPlayerState := 2;
               HooksProvider.setLobbyState := 3; HooksProvider.setTableState := 4 |} in
  let p := {| prop_serverUrl := "ws://host"; prop_autoConnect := false;
              prop_authStrategy := None; prop_maxReconnectAttempts := 5;
              prop_reconnectDelay := (1000 # 1)%Q |} in
  exists w1,
    @HooksProvider.effect sample_runtime p st None = (Some w1, Normal ()) /\
    socket_live w1 = true /\
    @HooksProvider.effect sample_runtime sample_props st
      (HooksProvider.cleanup (Some w1)) = (Some (Hooks.disconnect w1), Normal ()) /\
    socket_live (Hooks.disconnect w1) = false.
Proof.
  intros st p.
  destruct (@hooks_provider_never_reconnects sample_runtime p st eq_refl)
    as (w1 & Heff & Hlive & _ & _ & Hagain).
  exists w1. split; [exact Heff|]. split; [exact Hlive|].
  destruct (Hagain sample_props st) as (Hsame & Hdead & _).
  split; [exact Hsame|exact Hdead].
Defined.

(** ** Convenience methods *)

Lemma sendCommand_sends `{Runtime} action data w :
  sends (sendCommand action data w) w (command action data).
Proof.
  intros h s text Hon Hsock Hs Hr Htext.
  unfold sendCommand. rewrite Hon, Htext, Hsock, Hs. simpl.
  unfold ws_send, ws_take. by destruct (readyState s).
Qed.

Lemma sendCommand_dropped `{Runtime} action data w :
  connected (this w) = false -> sendCommand action data w = (w, false).
Proof. intros Hoff. unfold sendCommand. by rewrite Hoff. Qed.

Lemma obj_set_keys k v (o : JSObject) :
  (obj_set k v o).*1 = if decide (k ∈ o.*1) then o.*1 else o.*1 ++ [k].
Proof.
  induction o as [|[k0 v0] o IH]; csimpl; [done|].
  destruct (decide (k0 = k)) as [->|Hne]; csimpl.
  - rewrite decide_True; [done|constructor].
  - rewrite IH. destruct (decide (k ∈ o.*1)) as [Hin|Hnot].
    + rewrite decide_True; [done|by constructor].
    + rewrite decide_False; [done|].
      intros Hin. apply elem_of_cons in Hin as [->|Hin]; done.
Qed.

Lemma obj_spread_NoDup (base src : JSObject) :
  NoDup base.*1 -> NoDup (obj_spread base src).*1.
Proof.
  unfold obj_spread. revert base.
  induction src as [|[k v] src IH]; intros base Hbase; simpl; [done|].
  apply IH. rewrite obj_set_keys. destruct (decide (k ∈ base.*1)); [done|].
  apply NoDup_app. split; [done|]. split; [|apply NoDup_singleton].
  intros x Hx Hin. apply list_elem_of_singleton in Hin as ->. done.
Qed.

(** X17. [sendGameCommand] of [hooks/ShoehiveClient.js] sends one object
    built by two spreads: the properties of [data], [gameAction] set to the
    game action unless [data] has its own, and [action] set to the
    game-command type unless [data] has its own [action], which then
    replaces the command type. While the client is not connected the call
    returns false and changes nothing. *)
Theorem sendGameCommand_object `{Runtime} `{CommandTypes} action data w :
  NoDup data.*1 ->
  let o := command GAME_COMMAND (obj_spread [("gameAction", JSStr action)] data) in
  sends (Hooks.sendGameCommand action data w) w o /\
  (connected (this w) = false -> Hooks.sendGameCommand action data w = (w, false)) /\
  forall k,
    obj_get k o =
    match obj_get k data with
    | Some v => Some v
    | None =>
        if decide (k = "action") then Some (JSStr GAME_COMMAND)
        else if decide (k = "gameAction") then Some (JSStr action)
        else None
    end.
Proof.
  intros Hnodup o. split; [apply sendCommand_sends|]. split; [apply sendCommand_dropped|].
  intros k. unfold o, command.
  rewrite obj_get_spread.
  - rewrite obj_get_spread by done. simpl.
    destruct (obj_get k data); [done|].
    destruct (decide ("gameAction" = k)) as [<-|Hne].
    + by rewrite decide_False.
    + destruct (decide ("action" = k)) as [<-|Hne'].
      * by rewrite decide_True.
      * rewrite decide_False by done. by rewrite decide_False.
  - apply obj_spread_NoDup. apply NoDup_singleton.
Qed.

Lemma sendGameCommand_object_witness :
  let data := [("cardId", JSStr "ace-spades"); ("action", JSStr "oops")] in
  NoDup data.*1 /\
  obj_get "action"
    (command (@GAME_COMMAND sample_commands)
       (obj_spread [("gameAction", JSStr "play-card")] data)) = Some (JSStr "oops") /\
  obj_get "gameAction"
    (command (@GAME_COMMAND sample_commands)
       (obj_spread [("gameAction", JSStr "play-card")] data)) = Some (JSStr "play-card").
Proof.
  intros data.
  assert (Hnodup : NoDup data.*1).
  { apply (bool_decide_unpack _). vm_compute. exact I. }
  split; [exact Hnodup|].
  destruct (@sendGameCommand_object sample_runtime sample_commands "play-card" data
              (new_world "ws://host" default_options) Hnodup) as (_ & _ & Hget).
  split; [exact (Hget "action")|exact (Hget "gameAction")].
Defined.



Lemma connect_rejected_url_witness :
  let w := new_world "not a url" default_options in
  socket_live w = false /\
  @WebSocket_accepts strict_runtime (resolved_url (this w)) = false /\
  (@Core.connect strict_runtime w).2 = false /\
  heap (@Core.connect strict_runtime w).1 = [] /\
  @Hooks.connect strict_runtime w = (w, Throw SyntaxError).
Proof.
  intros w.
  destruct (@connect_rejected_url strict_runtime w eq_refl eq_refl)
    as [(Hfalse & _ & Hheap & _) Hthrow].
  split; [reflexivity|]. split; [reflexivity|]. split; [exact Hfalse|].
  split; [exact Hheap|exact Hthrow].
Defined.
